(** * rainbow_tag: the RGB565 sprite blitter of the WHY2025 badge

    A shallow embedding of [rainbow_tag/main.c] and the proofs of the
    properties its specification states.

    Conventions of the embedding.
    - C [int] values are [Z].  Signed overflow is undefined in C; the
      model computes in [Z], and the conversions from [float] check the
      range of [int].  [Uint32] arithmetic wraps and is written with
      [mod 2^32]; a [Uint16] pixel is two bytes, little endian as on the
      badge's RISC-V core.
    - A pixel array is a [list byte]; reading or writing outside of it is
      undefined behaviour in C and yields [Undefined] here, as do a
      division by zero and the use of a NULL sheet.
    - C [float] is IEEE-754 binary32 ([F32.float]): every finite value is an
      integer multiple of 2^-149 and every operation rounds the exact result
      to nearest, ties to even.
    - A [while] loop takes fuel and yields [OutOfFuel] when it is used up;
      the counted [for] loops are given the fuel they need.
    - SDL is an external library: its entry points are the fields of the
      class [SDL_Platform], and a surface is a value, so that a call which
      draws returns the surface it leaves. *)

From Stdlib Require Import ZArith Lia Bool List.
From Stdlib Require Import Strings.Byte.
From Stdlib Require Import Floats.SpecFloat.
From stdpp Require Import base list.

Local Open Scope Z_scope.

(* ===================================================================== *)
(** ** Outcomes of C code *)
(* ===================================================================== *)

(** A C function either returns, or runs into undefined behaviour (an
    access outside an array, a division by zero, a conversion out of
    range), or its loop is not finished when the fuel is used up. *)
Inductive outcome (A : Type) : Type :=
| Done (a : A)
| Undefined
| OutOfFuel.
Arguments Done {A} a.
Arguments Undefined {A}.
Arguments OutOfFuel {A}.

#[global] Instance outcome_ret : MRet outcome := λ A a, Done a.
#[global] Instance outcome_bind : MBind outcome := λ A B f m,
  match m with
  | Done a => f a
  | Undefined => Undefined
  | OutOfFuel => OutOfFuel
  end.

(** [for (i = lo; i < hi; i += step) body], with [step >= 1]: the loop runs
    at most [hi - lo] times, which is the fuel [for_range] gives it. *)
Fixpoint for_loop {S : Type} (fuel : nat) (i hi step : Z)
    (body : Z → S → outcome S) (s : S) : outcome S :=
  match fuel with
  | O => if i <? hi then OutOfFuel else Done s
  | Datatypes.S f =>
      if i <? hi then s' ← body i s; for_loop f (i + step) hi step body s'
      else Done s
  end.

Definition for_range {S : Type} (lo hi step : Z)
    (body : Z → S → outcome S) (s : S) : outcome S :=
  for_loop (Z.to_nat (hi - lo)) lo hi step body s.

(* ===================================================================== *)
(** ** Bytes and pixel memory *)
(* ===================================================================== *)

Definition byte_to_Z (b : byte) : Z := Z.of_N (Byte.to_N b).

Definition byte_of_Z (z : Z) : byte :=
  match Byte.of_N (Z.to_N (z mod 256)) with
  | Some b => b
  | None => x00
  end.

(** The byte at offset [o] of a pixel array, if [o] is inside it. *)
Definition byte_at (m : list byte) (o : Z) : option byte :=
  if o <? 0 then None else m !! Z.to_nat o.

Definition load8 (m : list byte) (o : Z) : outcome byte :=
  match byte_at m o with
  | Some b => Done b
  | None => Undefined
  end.

Definition store8 (m : list byte) (o : Z) (b : byte) : outcome (list byte) :=
  if (0 <=? o) && (o <? Z.of_nat (length m))
  then Done (<[Z.to_nat o := b]> m)
  else Undefined.

(** [*(Uint16 * )(p + o)] read and written on a little-endian machine. *)
Definition load16 (m : list byte) (o : Z) : outcome Z :=
  b0 ← load8 m o;
  b1 ← load8 m (o + 1);
  Done (byte_to_Z b0 + 256 * byte_to_Z b1).

Definition store16 (m : list byte) (o : Z) (v : Z) : outcome (list byte) :=
  m1 ← store8 m o (byte_of_Z v);
  store8 m1 (o + 1) (byte_of_Z (v / 256)).

(** [memcpy(dst + d, src + s, n)] between two distinct arrays. *)
Definition memcpy (dst : list byte) (d : Z) (src : list byte) (s : Z) (n : Z)
    : outcome (list byte) :=
  for_range 0 n 1 (λ i dp, b ← load8 src (s + i); store8 dp (d + i) b) dst.

(* ===================================================================== *)
(** ** C float: IEEE-754 binary32 *)
(* ===================================================================== *)

Module F32.

(** A finite binary32 value is [n * 2^-149] for an integer [n]: 2^-149 is
    the smallest subnormal.  The sign of zero is not kept: no operation of
    the program tells [-0.0f] from [0.0f]. *)
Inductive float : Type :=
| NaN
| Inf (neg : bool)
| Fin (n : Z).

(** Round [n / 2^sh] to the nearest integer, ties to even ([n >= 0]). *)
Definition rne (n sh : Z) : Z :=
  let q := n / 2 ^ sh in
  let r := n mod 2 ^ sh in
  if 2 * r <? 2 ^ sh then q
  else if 2 ^ sh <? 2 * r then q + 1
  else if Z.even q then q else q + 1.

(** Round the magnitude [n * 2^-(149+k)] to 24 significant bits, or to a
    multiple of 2^-149 in the subnormal range; the result is in units of
    2^-149. *)
Definition round_mag (n k : Z) : Z :=
  let sh := Z.max k (Z.log2 n - 23) in
  rne n sh * 2 ^ (sh - k).

(** 2^128 in units of 2^-149: a rounded magnitude this large overflows. *)
Definition overflow : Z := 2 ^ 277.

Definition round (neg : bool) (mag k : Z) : float :=
  let m := round_mag mag k in
  if overflow <=? m then Inf neg else Fin (if neg then - m else m).

(** The float [m * 2^e], for a literal that is exactly representable. *)
Definition lit (m e : Z) : float := Fin (m * 2 ^ (149 + e)).

Definition of_int (z : Z) : float := round (z <? 0) (Z.abs z * 2 ^ 149) 0.

Definition add (x y : float) : float :=
  match x, y with
  | NaN, _ | _, NaN => NaN
  | Inf a, Inf b => if Bool.eqb a b then Inf a else NaN
  | Inf a, Fin _ | Fin _, Inf a => Inf a
  | Fin a, Fin b => round (a + b <? 0) (Z.abs (a + b)) 0
  end.

Definition neg (x : float) : float :=
  match x with
  | NaN => NaN
  | Inf s => Inf (negb s)
  | Fin n => Fin (- n)
  end.

Definition sub (x y : float) : float := add x (neg y).

Definition mul (x y : float) : float :=
  match x, y with
  | NaN, _ | _, NaN => NaN
  | Inf a, Inf b => Inf (xorb a b)
  | Inf a, Fin n | Fin n, Inf a =>
      if n =? 0 then NaN else Inf (xorb a (n <? 0))
  | Fin a, Fin b => round (a * b <? 0) (Z.abs (a * b)) 149
  end.

(** Comparisons; every comparison with a NaN is false. *)
Definition ltb (x y : float) : bool :=
  match x, y with
  | NaN, _ | _, NaN => false
  | Inf a, Inf b => a && negb b
  | Inf a, Fin _ => a
  | Fin _, Inf b => negb b
  | Fin a, Fin b => a <? b
  end.

Definition eqb (x y : float) : bool :=
  match x, y with
  | NaN, _ | _, NaN => false
  | Inf a, Inf b => Bool.eqb a b
  | Inf _, Fin _ | Fin _, Inf _ => false
  | Fin a, Fin b => a =? b
  end.

Definition gtb (x y : float) : bool := ltb y x.
Definition leb (x y : float) : bool := ltb x y || eqb x y.
Definition geb (x y : float) : bool := leb y x.

(** [(int)x]: truncation towards zero; undefined when the truncated value
    is not an [int]. *)
Definition to_int (x : float) : outcome Z :=
  match x with
  | Fin n =>
      let q := Z.quot n (2 ^ 149) in
      if (- 2 ^ 31 <=? q) && (q <=? 2 ^ 31 - 1) then Done q else Undefined
  | _ => Undefined
  end.

End F32.

Abbreviation float := F32.float.

(** The same values as the Standard Library's [spec_float] at the binary32
    parameters (precision 24, maximal exponent 128), to compare [F32] with
    the library's operations on sample values. *)
Module F32Spec.

Definition prec : Z := 24.
Definition emax : Z := 128.

Definition to_spec (x : float) : spec_float :=
  match x with
  | F32.NaN => S754_nan
  | F32.Inf s => S754_infinity s
  | F32.Fin n => binary_normalize prec emax n (-149) false
  end.

(** Equality of [spec_float]s up to the sign of zero. *)
Definition same (a b : spec_float) : bool :=
  match a, b with
  | S754_zero _, S754_zero _ => true
  | S754_nan, S754_nan => true
  | S754_infinity s, S754_infinity t => Bool.eqb s t
  | S754_finite s m e, S754_finite t m' e' =>
      Bool.eqb s t && Pos.eqb m m' && Z.eqb e e'
  | _, _ => false
  end.

(** Normal and subnormal numbers, ties, values next to the overflow
    threshold, the two speeds 1.8f and 1.4f, infinities and NaN. *)
Definition samples : list float :=
  [ F32.lit 1 0; F32.lit 3 (-1); F32.lit 15099494 (-23);
    F32.lit 11744051 (-23); F32.lit (-7) 3; F32.Fin 1; F32.Fin 5;
    F32.Fin (2 ^ 23 + 1); F32.lit 16777215 104; F32.lit 16777215 100;
    F32.lit 8388609 0; F32.lit 8388611 1; F32.lit 1 24; F32.lit 1 (-1);
    F32.lit (-12345) (-10); F32.Fin 0; F32.lit 13421773 (-27);
    F32.lit 16777215 (-80); F32.of_int 720; F32.of_int 16777217;
    F32.of_int 16777219; F32.of_int (-1000000007);
    F32.Inf true; F32.Inf false; F32.NaN ].

Definition pairs : list (float * float) := list_prod samples samples.

Definition agree : bool :=
  forallb (λ '(a, b),
    same (to_spec (F32.add a b)) (SFadd prec emax (to_spec a) (to_spec b)) &&
    same (to_spec (F32.mul a b)) (SFmul prec emax (to_spec a) (to_spec b)) &&
    Bool.eqb (F32.ltb a b) (SFltb (to_spec a) (to_spec b)) &&
    Bool.eqb (F32.eqb a b) (SFeqb (to_spec a) (to_spec b))) pairs &&
  forallb (λ z,
    same (to_spec (F32.of_int z)) (binary_normalize prec emax z 0 false))
    [0; 1; -1; 720; 16777216; 16777217; 16777219; -33554435; 2147483647].

End F32Spec.

(* ===================================================================== *)
(** ** SDL data and the platform interface *)
(* ===================================================================== *)

Module Rect.
Record t : Type := mk { x : Z; y : Z; w : Z; h : Z }.
End Rect.
Abbreviation SDL_Rect := Rect.t.

Module Surface.
(** The fields of [SDL_Surface] the program reads; [colorkey] is what
    [SDL_SetSurfaceColorKey] records. *)
Record t : Type := mk {
  format : Z;
  w : Z;
  h : Z;
  pitch : Z;
  pixels : list byte;
  colorkey : option Z
}.

Definition set_pixels (p : list byte) (s : t) : t :=
  {| format := format s; w := w s; h := h s; pitch := pitch s;
     pixels := p; colorkey := colorkey s |}.

Definition set_colorkey (k : option Z) (s : t) : t :=
  {| format := format s; w := w s; h := h s; pitch := pitch s;
     pixels := pixels s; colorkey := k |}.
End Surface.
Abbreviation SDL_Surface := Surface.t.

Record SDL_PixelFormatDetails : Type := {
  pf_format : Z;
  bytes_per_pixel : Z
}.

Definition SDL_PIXELFORMAT_RGB565 : Z := 0x15151002.

Inductive SDL_AppResult : Type :=
| SDL_APP_CONTINUE
| SDL_APP_SUCCESS
| SDL_APP_FAILURE.

Inductive SDL_Scancode : Type :=
| SDL_SCANCODE_ESCAPE
| SDL_SCANCODE_Q
| SDL_SCANCODE_AC_BACK
| SDL_SCANCODE_RETURN
| SDL_SCANCODE_SPACE
| SDL_SCANCODE_R
| SDL_SCANCODE_S
| SDL_SCANCODE_OTHER (code : Z).

(** The SDL3 entry points the program calls.  A surface is a value here, so
    a call that draws returns the destination surface it leaves behind.
    [SDL_LockSurface], [SDL_BlitSurface] and [SDL_BlitSurfaceScaled] return
    a C [bool]; the rectangles they take are [const]. *)
Class SDL_Platform : Type := {
  SDL_GetPixelFormatDetails : Z → option SDL_PixelFormatDetails;
  SDL_CreateSurface : Z → Z → Z → option SDL_Surface;
  SDL_LockSurface : SDL_Surface → bool;
  SDL_MapRGB : option SDL_PixelFormatDetails → Z → Z → Z → Z;
  SDL_FillSurfaceRect : SDL_Surface → option SDL_Rect → Z → SDL_Surface;
  SDL_BlitSurface :
    SDL_Surface → SDL_Rect → SDL_Surface → SDL_Rect → bool * SDL_Surface;
  SDL_BlitSurfaceScaled :
    SDL_Surface → SDL_Rect → SDL_Surface → SDL_Rect → bool * SDL_Surface
}.

(** [SDL_SetSurfaceColorKey(s, true, key)]. *)
Definition SDL_SetSurfaceColorKey (s : SDL_Surface) (key : Z) : SDL_Surface :=
  Surface.set_colorkey (Some key) s.

(* ===================================================================== *)
(** ** Constants and the application state *)
(* ===================================================================== *)

Definition SPRITE_COLS : Z := 8.
Definition SPRITE_ROWS : Z := 4.
Definition SPRITE_FPS : Z := 24.

Definition KEY_R : Z := 32.
Definition KEY_G : Z := 32.
Definition KEY_B : Z := 32.

(** { 0.5f, 1.0f, 1.5f, 2.0f, 2.5f, 3.0f, 3.5f, 4.0f, 5.0f, 6.0f } *)
Definition SCALE_OPTIONS : list float :=
  [ F32.lit 1 (-1); F32.lit 1 0; F32.lit 3 (-1); F32.lit 2 0; F32.lit 5 (-1);
    F32.lit 3 0; F32.lit 7 (-1); F32.lit 4 0; F32.lit 5 0; F32.lit 6 0 ].
Definition SCALE_COUNT : Z := Z.of_nat (length SCALE_OPTIONS).
Definition DEFAULT_SCALE : float := F32.lit 2 0.

Definition Uint32_wrap (z : Z) : Z := z mod 2 ^ 32.

(** C [/] and [%] on [int]: truncating, undefined for a zero divisor. *)
Definition c_div (a b : Z) : outcome Z :=
  if b =? 0 then Undefined else Done (Z.quot a b).
Definition c_mod (a b : Z) : outcome Z :=
  if b =? 0 then Undefined else Done (Z.rem a b).

Module App.
Record t : Type := mk {
  win : Surface.t;
  screen_w : Z;
  screen_h : Z;
  sheet_base : option Surface.t;
  sheet_rot : list (option Surface.t);
  tex_w : Z;
  tex_h : Z;
  fw : Z;
  fh : Z;
  cols : Z;
  rows : Z;
  frames : Z;
  anim_step_ms_base : Z;
  anim_step_ms_eff : Z;
  ms_accum : Z;
  last_ms : Z;
  frame : Z;
  x : float;
  y : float;
  vx : float;
  vy : float;
  rot : Z;
  scale : float;
  scale_idx : Z;
  black : Z;
  prev_dst : Rect.t;
  has_prev : bool;
  is565 : bool;
  key565 : Z
}.

Definition set_win (v : Surface.t) (a : t) : t :=
  {| win := v; screen_w := screen_w a; screen_h := screen_h a;
     sheet_base := sheet_base a; sheet_rot := sheet_rot a; tex_w := tex_w a;
     tex_h := tex_h a; fw := fw a; fh := fh a; cols := cols a;
     rows := rows a; frames := frames a;
     anim_step_ms_base := anim_step_ms_base a;
     anim_step_ms_eff := anim_step_ms_eff a; ms_accum := ms_accum a;
     last_ms := last_ms a; frame := frame a; x := x a; y := y a; vx := vx a;
     vy := vy a; rot := rot a; scale := scale a; scale_idx := scale_idx a;
     black := black a; prev_dst := prev_dst a; has_prev := has_prev a;
     is565 := is565 a; key565 := key565 a |}.

Definition set_sheet_rot (v : list (option Surface.t)) (a : t) : t :=
  {| win := win a; screen_w := screen_w a; screen_h := screen_h a;
     sheet_base := sheet_base a; sheet_rot := v; tex_w := tex_w a;
     tex_h := tex_h a; fw := fw a; fh := fh a; cols := cols a;
     rows := rows a; frames := frames a;
     anim_step_ms_base := anim_step_ms_base a;
     anim_step_ms_eff := anim_step_ms_eff a; ms_accum := ms_accum a;
     last_ms := last_ms a; frame := frame a; x := x a; y := y a; vx := vx a;
     vy := vy a; rot := rot a; scale := scale a; scale_idx := scale_idx a;
     black := black a; prev_dst := prev_dst a; has_prev := has_prev a;
     is565 := is565 a; key565 := key565 a |}.

Definition set_anim_step_ms_eff (v : Z) (a : t) : t :=
  {| win := win a; screen_w := screen_w a; screen_h := screen_h a;
     sheet_base := sheet_base a; sheet_rot := sheet_rot a; tex_w := tex_w a;
     tex_h := tex_h a; fw := fw a; fh := fh a; cols := cols a;
     rows := rows a; frames := frames a;
     anim_step_ms_base := anim_step_ms_base a; anim_step_ms_eff := v;
     ms_accum := ms_accum a; last_ms := last_ms a; frame := frame a;
     x := x a; y := y a; vx := vx a; vy := vy a; rot := rot a;
     scale := scale a; scale_idx := scale_idx a; black := black a;
     prev_dst := prev_dst a; has_prev := has_prev a; is565 := is565 a;
     key565 := key565 a |}.

Definition set_ms_accum (v : Z) (a : t) : t :=
  {| win := win a; screen_w := screen_w a; screen_h := screen_h a;
     sheet_base := sheet_base a; sheet_rot := sheet_rot a; tex_w := tex_w a;
     tex_h := tex_h a; fw := fw a; fh := fh a; cols := cols a;
     rows := rows a; frames := frames a;
     anim_step_ms_base := anim_step_ms_base a;
     anim_step_ms_eff := anim_step_ms_eff a; ms_accum := v;
     last_ms := last_ms a; frame := frame a; x := x a; y := y a; vx := vx a;
     vy := vy a; rot := rot a; scale := scale a; scale_idx := scale_idx a;
     black := black a; prev_dst := prev_dst a; has_prev := has_prev a;
     is565 := is565 a; key565 := key565 a |}.

Definition set_last_ms (v : Z) (a : t) : t :=
  {| win := win a; screen_w := screen_w a; screen_h := screen_h a;
     sheet_base := sheet_base a; sheet_rot := sheet_rot a; tex_w := tex_w a;
     tex_h := tex_h a; fw := fw a; fh := fh a; cols := cols a;
     rows := rows a; frames := frames a;
     anim_step_ms_base := anim_step_ms_base a;
     anim_step_ms_eff := anim_step_ms_eff a; ms_accum := ms_accum a;
     last_ms := v; frame := frame a; x := x a; y := y a; vx := vx a;
     vy := vy a; rot := rot a; scale := scale a; scale_idx := scale_idx a;
     black := black a; prev_dst := prev_dst a; has_prev := has_prev a;
     is565 := is565 a; key565 := key565 a |}.

Definition set_frame (v : Z) (a : t) : t :=
  {| win := win a; screen_w := screen_w a; screen_h := screen_h a;
     sheet_base := sheet_base a; sheet_rot := sheet_rot a; tex_w := tex_w a;
     tex_h := tex_h a; fw := fw a; fh := fh a; cols := cols a;
     rows := rows a; frames := frames a;
     anim_step_ms_base := anim_step_ms_base a;
     anim_step_ms_eff := anim_step_ms_eff a; ms_accum := ms_accum a;
     last_ms := last_ms a; frame := v; x := x a; y := y a; vx := vx a;
     vy := vy a; rot := rot a; scale := scale a; scale_idx := scale_idx a;
     black := black a; prev_dst := prev_dst a; has_prev := has_prev a;
     is565 := is565 a; key565 := key565 a |}.

Definition set_x (v : float) (a : t) : t :=
  {| win := win a; screen_w := screen_w a; screen_h := screen_h a;
     sheet_base := sheet_base a; sheet_rot := sheet_rot a; tex_w := tex_w a;
     tex_h := tex_h a; fw := fw a; fh := fh a; cols := cols a;
     rows := rows a; frames := frames a;
     anim_step_ms_base := anim_step_ms_base a;
     anim_step_ms_eff := anim_step_ms_eff a; ms_accum := ms_accum a;
     last_ms := last_ms a; frame := frame a; x := v; y := y a; vx := vx a;
     vy := vy a; rot := rot a; scale := scale a; scale_idx := scale_idx a;
     black := black a; prev_dst := prev_dst a; has_prev := has_prev a;
     is565 := is565 a; key565 := key565 a |}.

Definition set_y (v : float) (a : t) : t :=
  {| win := win a; screen_w := screen_w a; screen_h := screen_h a;
     sheet_base := sheet_base a; sheet_rot := sheet_rot a; tex_w := tex_w a;
     tex_h := tex_h a; fw := fw a; fh := fh a; cols := cols a;
     rows := rows a; frames := frames a;
     anim_step_ms_base := anim_step_ms_base a;
     anim_step_ms_eff := anim_step_ms_eff a; ms_accum := ms_accum a;
     last_ms := last_ms a; frame := frame a; x := x a; y := v; vx := vx a;
     vy := vy a; rot := rot a; scale := scale a; scale_idx := scale_idx a;
     black := black a; prev_dst := prev_dst a; has_prev := has_prev a;
     is565 := is565 a; key565 := key565 a |}.

Definition set_vx (v : float) (a : t) : t :=
  {| win := win a; screen_w := screen_w a; screen_h := screen_h a;
     sheet_base := sheet_base a; sheet_rot := sheet_rot a; tex_w := tex_w a;
     tex_h := tex_h a; fw := fw a; fh := fh a; cols := cols a;
     rows := rows a; frames := frames a;
     anim_step_ms_base := anim_step_ms_base a;
     anim_step_ms_eff := anim_step_ms_eff a; ms_accum := ms_accum a;
     last_ms := last_ms a; frame := frame a; x := x a; y := y a; vx := v;
     vy := vy a; rot := rot a; scale := scale a; scale_idx := scale_idx a;
     black := black a; prev_dst := prev_dst a; has_prev := has_prev a;
     is565 := is565 a; key565 := key565 a |}.

Definition set_vy (v : float) (a : t) : t :=
  {| win := win a; screen_w := screen_w a; screen_h := screen_h a;
     sheet_base := sheet_base a; sheet_rot := sheet_rot a; tex_w := tex_w a;
     tex_h := tex_h a; fw := fw a; fh := fh a; cols := cols a;
     rows := rows a; frames := frames a;
     anim_step_ms_base := anim_step_ms_base a;
     anim_step_ms_eff := anim_step_ms_eff a; ms_accum := ms_accum a;
     last_ms := last_ms a; frame := frame a; x := x a; y := y a; vx := vx a;
     vy := v; rot := rot a; scale := scale a; scale_idx := scale_idx a;
     black := black a; prev_dst := prev_dst a; has_prev := has_prev a;
     is565 := is565 a; key565 := key565 a |}.

Definition set_rot (v : Z) (a : t) : t :=
  {| win := win a; screen_w := screen_w a; screen_h := screen_h a;
     sheet_base := sheet_base a; sheet_rot := sheet_rot a; tex_w := tex_w a;
     tex_h := tex_h a; fw := fw a; fh := fh a; cols := cols a;
     rows := rows a; frames := frames a;
     anim_step_ms_base := anim_step_ms_base a;
     anim_step_ms_eff := anim_step_ms_eff a; ms_accum := ms_accum a;
     last_ms := last_ms a; frame := frame a; x := x a; y := y a; vx := vx a;
     vy := vy a; rot := v; scale := scale a; scale_idx := scale_idx a;
     black := black a; prev_dst := prev_dst a; has_prev := has_prev a;
     is565 := is565 a; key565 := key565 a |}.

Definition set_scale (v : float) (a : t) : t :=
  {| win := win a; screen_w := screen_w a; screen_h := screen_h a;
     sheet_base := sheet_base a; sheet_rot := sheet_rot a; tex_w := tex_w a;
     tex_h := tex_h a; fw := fw a; fh := fh a; cols := cols a;
     rows := rows a; frames := frames a;
     anim_step_ms_base := anim_step_ms_base a;
     anim_step_ms_eff := anim_step_ms_eff a; ms_accum := ms_accum a;
     last_ms := last_ms a; frame := frame a; x := x a; y := y a; vx := vx a;
     vy := vy a; rot := rot a; scale := v; scale_idx := scale_idx a;
     black := black a; prev_dst := prev_dst a; has_prev := has_prev a;
     is565 := is565 a; key565 := key565 a |}.

Definition set_scale_idx (v : Z) (a : t) : t :=
  {| win := win a; screen_w := screen_w a; screen_h := screen_h a;
     sheet_base := sheet_base a; sheet_rot := sheet_rot a; tex_w := tex_w a;
     tex_h := tex_h a; fw := fw a; fh := fh a; cols := cols a;
     rows := rows a; frames := frames a;
     anim_step_ms_base := anim_step_ms_base a;
     anim_step_ms_eff := anim_step_ms_eff a; ms_accum := ms_accum a;
     last_ms := last_ms a; frame := frame a; x := x a; y := y a; vx := vx a;
     vy := vy a; rot := rot a; scale := scale a; scale_idx := v;
     black := black a; prev_dst := prev_dst a; has_prev := has_prev a;
     is565 := is565 a; key565 := key565 a |}.

Definition set_prev_dst (v : Rect.t) (a : t) : t :=
  {| win := win a; screen_w := screen_w a; screen_h := screen_h a;
     sheet_base := sheet_base a; sheet_rot := sheet_rot a; tex_w := tex_w a;
     tex_h := tex_h a; fw := fw a; fh := fh a; cols := cols a;
     rows := rows a; frames := frames a;
     anim_step_ms_base := anim_step_ms_base a;
     anim_step_ms_eff := anim_step_ms_eff a; ms_accum := ms_accum a;
     last_ms := last_ms a; frame := frame a; x := x a; y := y a; vx := vx a;
     vy := vy a; rot := rot a; scale := scale a; scale_idx := scale_idx a;
     black := black a; prev_dst := v; has_prev := has_prev a;
     is565 := is565 a; key565 := key565 a |}.

Definition set_has_prev (v : bool) (a : t) : t :=
  {| win := win a; screen_w := screen_w a; screen_h := screen_h a;
     sheet_base := sheet_base a; sheet_rot := sheet_rot a; tex_w := tex_w a;
     tex_h := tex_h a; fw := fw a; fh := fh a; cols := cols a;
     rows := rows a; frames := frames a;
     anim_step_ms_base := anim_step_ms_base a;
     anim_step_ms_eff := anim_step_ms_eff a; ms_accum := ms_accum a;
     last_ms := last_ms a; frame := frame a; x := x a; y := y a; vx := vx a;
     vy := vy a; rot := rot a; scale := scale a; scale_idx := scale_idx a;
     black := black a; prev_dst := prev_dst a; has_prev := v;
     is565 := is565 a; key565 := key565 a |}.
End App.
Abbreviation App := App.t.

(* ===================================================================== *)
(** ** The program *)
(* ===================================================================== *)

Section Program.
Context `{sdl : SDL_Platform}.

(** [surface_bpp]: 4 when SDL knows nothing about the format. *)
Definition surface_bpp (s : SDL_Surface) : Z :=
  match SDL_GetPixelFormatDetails (Surface.format s) with
  | Some d => bytes_per_pixel d
  | None => 4
  end.

(** [SDL_LockSurface(s) < 0]: the test the program makes on the C [bool]
    that [SDL_LockSurface] returns. *)
Definition lock_failed (s : SDL_Surface) : bool :=
  Z.b2z (SDL_LockSurface s) <? 0.

(** The two nested loops of [rotate90_cw] on the destination pixels. *)
Definition rotate90_cw_loops (src dst : SDL_Surface) (bpp : Z)
    : outcome (list byte) :=
  let sw := Surface.w src in
  let sh := Surface.h src in
  for_range 0 sh 1 (λ y dp,
    let srow := y * Surface.pitch src in
    for_range 0 sw 1 (λ x dp,
      let spx := srow + x * bpp in
      let nx := sh - 1 - y in
      let ny := x in
      let dpx := ny * Surface.pitch dst + nx * bpp in
      memcpy dp dpx (Surface.pixels src) spx bpp) dp)
    (Surface.pixels dst).

(** [rotate90_cw]: [None] is the NULL it returns on failure. *)
Definition rotate90_cw (src : SDL_Surface) : outcome (option SDL_Surface) :=
  let sw := Surface.w src in
  let sh := Surface.h src in
  let fmt := Surface.format src in
  match SDL_CreateSurface sh sw fmt with
  | None => Done None
  | Some dst =>
      let bpp := surface_bpp src in
      if lock_failed src then Done None
      else if lock_failed dst then Done None
      else
        dp ← rotate90_cw_loops src dst bpp;
        Done (Some (Surface.set_pixels dp dst))
  end.

(** [a->sheet_rot[i]], dereferenced. *)
Definition sheet_at (a : App) (i : Z) : outcome SDL_Surface :=
  if i <? 0 then Undefined
  else match App.sheet_rot a !! Z.to_nat i with
       | Some (Some s) => Done s
       | _ => Undefined
       end.

Definition set_sheet (i : nat) (s : option SDL_Surface) (a : App) : App :=
  App.set_sheet_rot (<[i := s]> (App.sheet_rot a)) a.

(** The loop of [build_rotations_and_colorkey] that sets the colorkey of
    the rotated copies 1..3. *)
Definition reapply_colorkey (a : App) : outcome App :=
  for_range 1 4 1 (λ i a,
    s ← sheet_at a i;
    let d := SDL_GetPixelFormatDetails (Surface.format s) in
    let key := SDL_MapRGB d KEY_R KEY_G KEY_B in
    Done (set_sheet (Z.to_nat i) (Some (SDL_SetSurfaceColorKey s key)) a)) a.

Definition build_rotations_and_colorkey (a : App) : outcome (bool * App) :=
  let a := set_sheet 0 (App.sheet_base a) a in
  match App.sheet_base a with
  | None => Undefined
  | Some base =>
      r1 ← rotate90_cw base;
      let a := set_sheet 1 r1 a in
      match r1 with
      | None => Done (false, a)
      | Some s1 =>
          r2 ← rotate90_cw s1;
          let a := set_sheet 2 r2 a in
          match r2 with
          | None => Done (false, a)
          | Some s2 =>
              r3 ← rotate90_cw s2;
              let a := set_sheet 3 r3 a in
              match r3 with
              | None => Done (false, a)
              | Some _ => a ← reapply_colorkey a; Done (true, a)
              end
          end
      end
  end.

(** [grid_for_rot]: (cols, rows, fw, fh) of the sheet turned [rot] quarters. *)
Definition grid_for_rot (a : App) (rot : Z) : Z * Z * Z * Z :=
  let r := Z.land rot 3 in
  if (r =? 0) || (r =? 2)
  then (App.cols a, App.rows a, App.fw a, App.fh a)
  else (App.rows a, App.cols a, App.fh a, App.fw a).

(** [map_cell_for_rot]: (row, column) of a base cell in the turned grid. *)
Definition map_cell_for_rot (a : App) (rot base_r base_c : Z) : Z * Z :=
  let C := App.cols a in
  let R := App.rows a in
  let r := Z.land rot 3 in
  if r =? 0 then (base_r, base_c)
  else if r =? 1 then (base_c, R - 1 - base_r)
  else if r =? 2 then (R - 1 - base_r, C - 1 - base_c)
  else (C - 1 - base_c, base_r).

Definition get_src_for_frame_rot (a : App) (idx rot : Z) : outcome SDL_Rect :=
  sheet ← sheet_at a rot;
  let '(cols_r, rows_r, fw_r, fh_r) := grid_for_rot a rot in
  fw_i ← c_div (Surface.w sheet) cols_r;
  fh_i ← c_div (Surface.h sheet) rows_r;
  base_c ← c_mod idx (App.cols a);
  base_r ← c_div idx (App.cols a);
  let '(rr, cc) := map_cell_for_rot a rot base_r base_c in
  let x := cc * fw_i in
  let y := rr * fh_i in
  let w := if cc =? cols_r - 1 then Surface.w sheet - x else fw_i in
  let h := if rr =? rows_r - 1 then Surface.h sheet - y else fh_i in
  let x := if x <? 0 then 0 else x in
  let y := if y <? 0 then 0 else y in
  let w := if w <? 0 then 0 else w in
  let h := if h <? 0 then 0 else h in
  let w := if Surface.w sheet <? x + w then Surface.w sheet - x else w in
  let h := if Surface.h sheet <? y + h then Surface.h sheet - y else h in
  Done {| Rect.x := x; Rect.y := y; Rect.w := w; Rect.h := h |}.

(** [(int)(n * scale + 0.5f)] *)
Definition scaled_size (n : Z) (scale : float) : outcome Z :=
  F32.to_int (F32.add (F32.mul (F32.of_int n) scale) (F32.lit 1 (-1))).

Definition draw_size_for_rot (a : App) (rot : Z) : outcome (Z * Z) :=
  let '(_, _, fw_r, fh_r) := grid_for_rot a rot in
  w ← scaled_size fw_r (App.scale a);
  h ← scaled_size fh_r (App.scale a);
  Done (w, h).

Definition clamp_xy_for_rot (a : App) : outcome App :=
  '(dw, dh) ← draw_size_for_rot a (App.rot a);
  let a := if F32.ltb (App.x a) (F32.of_int 0)
           then App.set_x (F32.of_int 0) a else a in
  let a := if F32.ltb (App.y a) (F32.of_int 0)
           then App.set_y (F32.of_int 0) a else a in
  let a := if F32.gtb (F32.add (App.x a) (F32.of_int dw))
                (F32.of_int (App.screen_w a))
           then App.set_x (F32.of_int (App.screen_w a - dw)) a else a in
  let a := if F32.gtb (F32.add (App.y a) (F32.of_int dh))
                (F32.of_int (App.screen_h a))
           then App.set_y (F32.of_int (App.screen_h a - dh)) a else a in
  Done a.

(** [SCALE_OPTIONS[i]] *)
Definition scale_option (i : Z) : outcome float :=
  if i <? 0 then Undefined
  else match SCALE_OPTIONS !! Z.to_nat i with
       | Some s => Done s
       | None => Undefined
       end.

(** [1e9f] = 15625000 * 2^6. *)
Definition bestdiff_init : float := F32.lit 15625000 6.

Definition find_closest_scale_index (target : float) : outcome Z :=
  '(best, _) ← for_range 0 SCALE_COUNT 1 (λ i '(best, bestdiff),
      s ← scale_option i;
      let d := F32.sub target s in
      let d := if F32.ltb d (F32.of_int 0) then F32.neg d else d in
      if F32.ltb d bestdiff then Done (i, d) else Done (best, bestdiff))
    (0, bestdiff_init);
  Done best.

Definition update_anim_budget (a : App) : App :=
  let s := App.scale a in
  let mul := if F32.geb s (F32.lit 7 (-1)) then 3
             else if F32.geb s (F32.lit 5 (-1)) then 2 else 1 in
  App.set_anim_step_ms_eff (Uint32_wrap (App.anim_step_ms_base a * mul)) a.

(* ----------- the RGB565 integer scaling paths ----------- *)

(** [if (!half)]: upscale by the integer factor [iscale]. *)
Definition blit_upscale (sp : list byte) (spitch : Z) (sr : SDL_Rect)
    (dp : list byte) (dpitch : Z) (dr : SDL_Rect) (key565 iscale : Z)
    : outcome (list byte) :=
  for_range 0 (Rect.h sr) 1 (λ sy dp,
    let srow := (Rect.y sr + sy) * spitch + 2 * Rect.x sr in
    for_range 0 iscale 1 (λ vy dp,
      let drow := (Rect.y dr + sy * iscale + vy) * dpitch + 2 * Rect.x dr in
      '(dp, _) ← for_range 0 (Rect.w sr) 1 (λ sx '(dp, dx),
          pix ← load16 sp (srow + 2 * sx);
          if pix =? key565 then Done (dp, dx + iscale)
          else
            dp ← for_range 0 iscale 1 (λ i dp,
                   store16 dp (drow + 2 * (dx + i)) pix) dp;
            Done (dp, dx + iscale))
        (dp, 0);
      Done dp) dp) dp.

(** [else]: downscale by 2, sampling every other source pixel. *)
Definition blit_half (sp : list byte) (spitch : Z) (sr : SDL_Rect)
    (dp : list byte) (dpitch : Z) (dr : SDL_Rect) (key565 : Z)
    : outcome (list byte) :=
  for_range 0 (Rect.h sr) 2 (λ sy dp,
    let srow := (Rect.y sr + sy) * spitch + 2 * Rect.x sr in
    let drow := (Rect.y dr + Z.shiftr sy 1) * dpitch + 2 * Rect.x dr in
    '(dp, _) ← for_range 0 (Rect.w sr) 2 (λ sx '(dp, dx),
        pix ← load16 sp (srow + 2 * sx);
        dp ← (if negb (pix =? key565) then store16 dp (drow + 2 * dx) pix
              else Done dp);
        Done (dp, dx + 1))
      (dp, 0);
    Done dp) dp.

(** Returns whether the fast path handled the blit, and the destination
    surface it leaves. *)
Definition blit_colorkey_scale_fast_RGB565 (src : SDL_Surface) (sr : SDL_Rect)
    (dst : SDL_Surface) (dr : SDL_Rect) (key565 : Z) (scale : float)
    : outcome (bool * SDL_Surface) :=
  match SDL_GetPixelFormatDetails (Surface.format src),
        SDL_GetPixelFormatDetails (Surface.format dst) with
  | Some sd, Some dd =>
      if negb (bytes_per_pixel sd =? 2) || negb (bytes_per_pixel dd =? 2)
      then Done (false, dst)
      else
        let run (half : bool) (iscale : Z) : outcome (bool * SDL_Surface) :=
          if lock_failed src then Done (false, dst)
          else if lock_failed dst then Done (false, dst)
          else
            let sp := Surface.pixels src in
            let dp := Surface.pixels dst in
            let spitch := Surface.pitch src in
            let dpitch := Surface.pitch dst in
            dp ← (if negb half
                  then blit_upscale sp spitch sr dp dpitch dr key565 iscale
                  else blit_half sp spitch sr dp dpitch dr key565);
            Done (true, Surface.set_pixels dp dst) in
        if F32.eqb scale (F32.lit 2 0) then run false 2
        else if F32.eqb scale (F32.lit 3 0) then run false 3
        else if F32.eqb scale (F32.lit 4 0) then run false 4
        else if F32.eqb scale (F32.lit 1 (-1)) then run true 0
        else Done (false, dst)
  | _, _ => Done (false, dst)
  end.

(* ----------------- SDL callbacks ----------------- *)

Definition app_key (code : SDL_Scancode) (a : App)
    : outcome (SDL_AppResult * App) :=
  match code with
  | SDL_SCANCODE_ESCAPE | SDL_SCANCODE_Q | SDL_SCANCODE_AC_BACK
  | SDL_SCANCODE_RETURN | SDL_SCANCODE_SPACE => Done (SDL_APP_SUCCESS, a)
  | SDL_SCANCODE_R =>
      let a := App.set_rot (Z.land (App.rot a + 1) 3) a in
      let a := App.set_has_prev false a in
      a ← clamp_xy_for_rot a;
      _ ← draw_size_for_rot a (App.rot a);
      let a := App.set_win
                 (SDL_FillSurfaceRect (App.win a) None (App.black a)) a in
      Done (SDL_APP_CONTINUE, a)
  | SDL_SCANCODE_S =>
      let a := App.set_scale_idx
                 (Z.rem (App.scale_idx a + 1) SCALE_COUNT) a in
      s ← scale_option (App.scale_idx a);
      let a := App.set_scale s a in
      let a := update_anim_budget a in
      let a := App.set_has_prev false a in
      a ← clamp_xy_for_rot a;
      _ ← draw_size_for_rot a (App.rot a);
      let a := App.set_win
                 (SDL_FillSurfaceRect (App.win a) None (App.black a)) a in
      Done (SDL_APP_CONTINUE, a)
  | SDL_SCANCODE_OTHER _ => Done (SDL_APP_CONTINUE, a)
  end.

(** The lines of [SDL_AppInit] that choose the initial scale. *)
Definition init_scale (a : App) : outcome App :=
  i ← find_closest_scale_index DEFAULT_SCALE;
  let a := App.set_scale_idx i a in
  s ← scale_option (App.scale_idx a);
  let a := App.set_scale s a in
  Done (update_anim_budget a).

(** [while (a->ms_accum >= a->anim_step_ms_eff) { ... }] *)
Fixpoint anim_loop (fuel : nat) (a : App) : outcome App :=
  match fuel with
  | O => OutOfFuel
  | S f =>
      if App.anim_step_ms_eff a <=? App.ms_accum a then
        let a := App.set_ms_accum
                   (Uint32_wrap (App.ms_accum a - App.anim_step_ms_eff a)) a in
        fr ← c_mod (App.frame a + 1) (App.frames a);
        anim_loop f (App.set_frame fr a)
      else Done a
  end.

(** "step animation": [now] is [(Uint32)SDL_GetTicks()]. *)
Definition step_animation (fuel : nat) (now : Z) (a : App) : outcome App :=
  let delta := Uint32_wrap (now - App.last_ms a) in
  let a := App.set_last_ms now a in
  let a := App.set_ms_accum (Uint32_wrap (App.ms_accum a + delta)) a in
  anim_loop fuel a.

(** "move & bounce" for a draw size [dw] x [dh]. *)
Definition move_and_bounce (dw dh : Z) (a : App) : App :=
  let a := App.set_x (F32.add (App.x a) (App.vx a)) a in
  let a := App.set_y (F32.add (App.y a) (App.vy a)) a in
  let a := if F32.ltb (App.x a) (F32.of_int 0)
           then App.set_vx (F32.neg (App.vx a)) (App.set_x (F32.of_int 0) a)
           else a in
  let a := if F32.gtb (F32.add (App.x a) (F32.of_int dw))
                (F32.of_int (App.screen_w a))
           then App.set_vx (F32.neg (App.vx a))
                  (App.set_x (F32.of_int (App.screen_w a - dw)) a)
           else a in
  let a := if F32.ltb (App.y a) (F32.of_int 0)
           then App.set_vy (F32.neg (App.vy a)) (App.set_y (F32.of_int 0) a)
           else a in
  let a := if F32.gtb (F32.add (App.y a) (F32.of_int dh))
                (F32.of_int (App.screen_h a))
           then App.set_vy (F32.neg (App.vy a))
                  (App.set_y (F32.of_int (App.screen_h a - dh)) a)
           else a in
  a.

(** The blit of one tick: which path draws, whether it reports success,
    the window it leaves and the destination rectangle. *)
Definition draw_frame (a : App) (sheet : SDL_Surface) (src dst : SDL_Rect)
    : outcome (bool * SDL_Surface * SDL_Rect) :=
  if F32.eqb (App.scale a) (F32.lit 1 0) then
    let dst := {| Rect.x := Rect.x dst; Rect.y := Rect.y dst;
                  Rect.w := Rect.w src; Rect.h := Rect.h src |} in
    let '(ok, win) := SDL_BlitSurface sheet src (App.win a) dst in
    Done (ok, win, dst)
  else if App.is565 a then
    '(handled, win) ← blit_colorkey_scale_fast_RGB565 sheet src (App.win a)
                        dst (App.key565 a) (App.scale a);
    if negb handled then
      let '(ok, win) := SDL_BlitSurfaceScaled sheet src win dst in
      Done (ok, win, dst)
    else Done (true, win, dst)
  else
    let '(ok, win) := SDL_BlitSurfaceScaled sheet src (App.win a) dst in
    Done (ok, win, dst).

(** [SDL_AppIterate]; [ticks] is what [SDL_GetTicks] returns. *)
Definition SDL_AppIterate (fuel : nat) (ticks : Z) (a : App)
    : outcome (SDL_AppResult * App) :=
  let now := Uint32_wrap ticks in
  a ← step_animation fuel now a;
  '(dw, dh) ← draw_size_for_rot a (App.rot a);
  let a := move_and_bounce dw dh a in
  let a := if App.has_prev a
           then App.set_win (SDL_FillSurfaceRect (App.win a)
                               (Some (App.prev_dst a)) (App.black a)) a
           else a in
  sheet ← sheet_at a (App.rot a);
  src ← get_src_for_frame_rot a (App.frame a) (App.rot a);
  dx ← F32.to_int (App.x a);
  dy ← F32.to_int (App.y a);
  let dst := {| Rect.x := dx; Rect.y := dy; Rect.w := dw; Rect.h := dh |} in
  '(blit_ok, win, dst) ← draw_frame a sheet src dst;
  let a := App.set_win win a in
  let a := App.set_prev_dst dst a in
  let a := App.set_has_prev true a in
  Done (SDL_APP_CONTINUE, a).

End Program.

(* ===================================================================== *)
(** ** The edge tests of a tick *)
(* ===================================================================== *)

(** The four tests of "move & bounce", as [move_and_bounce] evaluates them:
    the low test on the moved position, the high test on the position the
    low test leaves. *)
Definition hit_low_x (a : App) : bool :=
  F32.ltb (F32.add (App.x a) (App.vx a)) (F32.of_int 0).

Definition hit_high_x (dw : Z) (a : App) : bool :=
  let x := if hit_low_x a then F32.of_int 0
           else F32.add (App.x a) (App.vx a) in
  F32.gtb (F32.add x (F32.of_int dw)) (F32.of_int (App.screen_w a)).

Definition hit_low_y (a : App) : bool :=
  F32.ltb (F32.add (App.y a) (App.vy a)) (F32.of_int 0).

Definition hit_high_y (dh : Z) (a : App) : bool :=
  let y := if hit_low_y a then F32.of_int 0
           else F32.add (App.y a) (App.vy a) in
  F32.gtb (F32.add y (F32.of_int dh)) (F32.of_int (App.screen_h a)).

(** One axis of "move & bounce": position [p], velocity [v], draw size [d],
    screen size [s]; returns the new position and velocity and the outcome
    of the two tests. *)
Definition bounce_axis (p v : float) (d s : Z) : float * float * bool * bool :=
  let p1 := F32.add p v in
  let lo := F32.ltb p1 (F32.of_int 0) in
  let p2 := if lo then F32.of_int 0 else p1 in
  let v2 := if lo then F32.neg v else v in
  let hi := F32.gtb (F32.add p2 (F32.of_int d)) (F32.of_int s) in
  let p3 := if hi then F32.of_int (s - d) else p2 in
  let v3 := if hi then F32.neg v2 else v2 in
  (p3, v3, lo, hi).

(** The presets in halves: 0.5 is 1, 6.0 is 12. *)
Definition scale_halves : list Z := [1; 2; 3; 4; 5; 6; 7; 8; 10; 12].

(** One axis of [get_src_for_frame_rot]: the start and the extent of cell
    [c] of [n] cells of nominal size [f] on a sheet of size [W], with the
    clamps the function ends with. *)
Definition axis_span (W f c n : Z) : Z * Z :=
  let x := c * f in
  let w := if c =? n - 1 then W - x else f in
  let x := if x <? 0 then 0 else x in
  let w := if w <? 0 then 0 else w in
  let w := if W <? x + w then W - x else w in
  (x, w).

(* ===================================================================== *)
(** ** Reading pixels *)
(* ===================================================================== *)

(** The byte at offset [o], [x00] outside the array. *)
Definition get (m : list byte) (o : Z) : byte :=
  match byte_at m o with
  | Some b => b
  | None => x00
  end.

(** The [bpp] bytes of pixel (x, y) of a surface. *)
Definition pixel_at (s : SDL_Surface) (bpp x y : Z) : list byte :=
  map (λ i, get (Surface.pixels s) (y * Surface.pitch s + x * bpp + i))
      (seqZ 0 bpp).

(** Pixel (x, y) of a surface of 2-byte pixels, as the [Uint16] the fast
    path reads. *)
Definition pixel16 (s : SDL_Surface) (x y : Z) : Z :=
  byte_to_Z (get (Surface.pixels s) (y * Surface.pitch s + 2 * x))
  + 256 * byte_to_Z (get (Surface.pixels s) (y * Surface.pitch s + 2 * x + 1)).

(** A surface whose pixel array holds [h] rows of [pitch] bytes, each with
    room for [w] pixels of [bpp] bytes. *)
Definition surface_ok (s : SDL_Surface) (bpp : Z) : Prop :=
  0 ≤ Surface.w s ∧ 0 ≤ Surface.h s ∧ 0 < bpp ∧
  Surface.w s * bpp ≤ Surface.pitch s ∧
  Surface.h s * Surface.pitch s ≤ Z.of_nat (length (Surface.pixels s)).

(** The rectangle [r] lies inside the surface [s]. *)
Definition rect_inside (r : SDL_Rect) (s : SDL_Surface) : Prop :=
  0 ≤ Rect.x r ∧ 0 ≤ Rect.y r ∧ 0 ≤ Rect.w r ∧ 0 ≤ Rect.h r ∧
  Rect.x r + Rect.w r ≤ Surface.w s ∧ Rect.y r + Rect.h r ≤ Surface.h s.

(** The rectangle of [w] x [h] pixels at the corner of [dr]. *)
Definition region (dr : SDL_Rect) (w h : Z) : SDL_Rect :=
  {| Rect.x := Rect.x dr; Rect.y := Rect.y dr; Rect.w := w; Rect.h := h |}.

(** [m'] is [m] with the bytes [P] describes written: [P o b] says that
    offset [o] now holds [b]; every other offset holds what it held. *)
Definition writes (m m' : list byte) (P : Z → byte → Prop) : Prop :=
  length m' = length m ∧
  (∀ o b, P o b → get m' o = b) ∧
  (∀ o, (∀ b, ¬ P o b) → get m' o = get m o).

(** What the program relies on when it asks SDL for a surface of the format
    of [src]: the surface has the size and the format asked for and its
    pixel array has room for its rows. *)
Definition create_ok `{sdl : SDL_Platform} (src : SDL_Surface) : Prop :=
  ∀ w h d, SDL_CreateSurface w h (Surface.format src) = Some d →
    Surface.w d = w ∧ Surface.h d = h ∧
    Surface.format d = Surface.format src ∧
    surface_ok d (surface_bpp src).

(* ===================================================================== *)
(** ** What the fast path writes *)
(* ===================================================================== *)

Section BlitFootprint.
Variables (sp : list byte) (spitch : Z) (sr : SDL_Rect).
Variables (dpitch : Z) (dr : SDL_Rect) (key565 : Z).

(** Offset of the sample (sx, sy) of the source rectangle. *)
Definition sample_off (sx sy : Z) : Z :=
  (Rect.y sr + sy) * spitch + 2 * Rect.x sr + 2 * sx.

(** The [Uint16] read there. *)
Definition sample16 (sx sy : Z) : Z :=
  byte_to_Z (get sp (sample_off sx sy))
  + 256 * byte_to_Z (get sp (sample_off sx sy + 1)).

(** Upscale by [k].  Byte [o] of the destination is written with [b] when
    it is one of the two bytes of the replica (i, vy) of a sample (sx, sy)
    that is not the colorkey. *)
Definition up_px (k sy vy sx i : Z) (o : Z) (b : byte) : Prop :=
  ∃ β, 0 ≤ β < 2 ∧
    o = (Rect.y dr + sy * k + vy) * dpitch + 2 * Rect.x dr
        + 2 * (sx * k + i) + β ∧
    b = get sp (sample_off sx sy + β).

Definition up_sx (k sy vy sx : Z) (o : Z) (b : byte) : Prop :=
  sample16 sx sy ≠ key565 ∧ ∃ i, 0 ≤ i < k ∧ up_px k sy vy sx i o b.

Definition up_vy (k sy vy : Z) (o : Z) (b : byte) : Prop :=
  ∃ sx, 0 ≤ sx < Rect.w sr ∧ up_sx k sy vy sx o b.

Definition up_sy (k sy : Z) (o : Z) (b : byte) : Prop :=
  ∃ vy, 0 ≤ vy < k ∧ up_vy k sy vy o b.

Definition upscale_writes (k : Z) (o : Z) (b : byte) : Prop :=
  ∃ sy, 0 ≤ sy < Rect.h sr ∧ up_sy k sy o b.

(** Downscale by 2.  Byte [o] is written with [b] when it is one of the two
    bytes of destination pixel (tx, ty) and the sample (2 tx, 2 ty) is not
    the colorkey. *)
Definition half_px (ty tx : Z) (o : Z) (b : byte) : Prop :=
  sample16 (2 * tx) (2 * ty) ≠ key565 ∧
  ∃ β, 0 ≤ β < 2 ∧
    o = (Rect.y dr + ty) * dpitch + 2 * Rect.x dr + 2 * tx + β ∧
    b = get sp (sample_off (2 * tx) (2 * ty) + β).

Definition half_row (ty : Z) (o : Z) (b : byte) : Prop :=
  ∃ tx, 0 ≤ tx ∧ 2 * tx < Rect.w sr ∧ half_px ty tx o b.

Definition half_writes (o : Z) (b : byte) : Prop :=
  ∃ ty, 0 ≤ ty ∧ 2 * ty < Rect.h sr ∧ half_row ty o b.

End BlitFootprint.

(* ===================================================================== *)
(** ** The states the tick is defined on *)
(* ===================================================================== *)



Section WellFormed.
Context `{sdl : SDL_Platform}.






End WellFormed.

(* ===================================================================== *)
(** ** A reference platform and sample data *)
(* ===================================================================== *)

(** A small SDL: RGB565 and RGB24 surfaces with rows padded to four bytes,
    locks that succeed, and generic blitters that report failure and leave
    the destination as it is. *)
Module Ref.

Definition SDL_PIXELFORMAT_RGB24 : Z := 0x17101803.

Definition details (fmt : Z) : option SDL_PixelFormatDetails :=
  if fmt =? SDL_PIXELFORMAT_RGB565
  then Some {| pf_format := fmt; bytes_per_pixel := 2 |}
  else if fmt =? SDL_PIXELFORMAT_RGB24
  then Some {| pf_format := fmt; bytes_per_pixel := 3 |}
  else None.

Definition row_pitch (w bpp : Z) : Z := (w * bpp + 3) / 4 * 4.

Definition create (w h fmt : Z) : option SDL_Surface :=
  match details fmt with
  | None => None
  | Some d =>
      if (w <? 0) || (h <? 0) then None
      else
        let pitch := row_pitch w (bytes_per_pixel d) in
        Some {| Surface.format := fmt; Surface.w := w; Surface.h := h;
                Surface.pitch := pitch;
                Surface.pixels := replicate (Z.to_nat (h * pitch)) x00;
                Surface.colorkey := None |}
  end.

Definition map_rgb (d : option SDL_PixelFormatDetails) (r g b : Z) : Z :=
  match d with
  | Some d =>
      if bytes_per_pixel d =? 2
      then Z.lor (Z.shiftl (Z.shiftr r 3) 11)
             (Z.lor (Z.shiftl (Z.shiftr g 2) 5) (Z.shiftr b 3))
      else Z.lor (Z.shiftl r 16) (Z.lor (Z.shiftl g 8) b)
  | None => 0
  end.

(** Fill a rectangle (the whole surface for [None]) of a 2-byte surface. *)
Definition fill (s : SDL_Surface) (r : option SDL_Rect) (color : Z)
    : SDL_Surface :=
  let inside (X Y : Z) : bool :=
    match r with
    | None => (X <? Surface.w s) && (Y <? Surface.h s)
    | Some r =>
        (Rect.x r <=? X) && (X <? Rect.x r + Rect.w r) &&
        (Rect.y r <=? Y) && (Y <? Rect.y r + Rect.h r) &&
        (X <? Surface.w s) && (Y <? Surface.h s)
    end in
  let paint (i : nat) (b : byte) : byte :=
    let o := Z.of_nat i in
    let Y := o / Surface.pitch s in
    let X := o mod Surface.pitch s / 2 in
    if inside X Y
    then byte_of_Z (if Z.even o then color else color / 256)
    else b in
  Surface.set_pixels (imap paint (Surface.pixels s)) s.

#[local] Instance platform : SDL_Platform := {|
  SDL_GetPixelFormatDetails := details;
  SDL_CreateSurface := create;
  SDL_LockSurface := λ _, true;
  SDL_MapRGB := map_rgb;
  SDL_FillSurfaceRect := fill;
  SDL_BlitSurface := λ _ _ dst _, (false, dst);
  SDL_BlitSurfaceScaled := λ _ _ dst _, (false, dst)
|}.

(** The RGB565 surface of size [w] x [h] whose pixel (x, y) is [f x y]. *)
Definition make_565 (w h : Z) (f : Z → Z → Z) : SDL_Surface :=
  let pitch := row_pitch w 2 in
  let row (y : Z) : list byte :=
    flat_map (λ x, [byte_of_Z (f x y); byte_of_Z (f x y / 256)]) (seqZ 0 w)
    ++ replicate (Z.to_nat (pitch - 2 * w)) x00 in
  {| Surface.format := SDL_PIXELFORMAT_RGB565; Surface.w := w;
     Surface.h := h; Surface.pitch := pitch;
     Surface.pixels := flat_map row (seqZ 0 h);
     Surface.colorkey := None |}.

(** The gray (32,32,32) in RGB565. *)
Definition gray565 : Z := 0x2104.

(** A 16 x 8 sheet of 8 x 4 frames of 2 x 2 pixels; every third diagonal is
    transparent. *)
Definition sheet : SDL_Surface :=
  make_565 16 8 (λ x y, if (x + y) mod 3 =? 0 then gray565
                        else 1000 + 16 * y + x).

(** A state as [SDL_AppInit] leaves it for a window of [sw] x [sh] pixels
    and the sheet [sh0], before the rotated sheets are built. *)
Definition app_on (sw sh : Z) (sh0 : SDL_Surface) (idx : Z) (scale : float)
    (x y vx vy : float) : App :=
  {| App.win := make_565 sw sh (λ _ _, 0);
     App.screen_w := sw; App.screen_h := sh;
     App.sheet_base := Some sh0;
     App.sheet_rot := [None; None; None; None];
     App.tex_w := Surface.w sh0; App.tex_h := Surface.h sh0;
     App.fw := Surface.w sh0 `quot` SPRITE_COLS;
     App.fh := Surface.h sh0 `quot` SPRITE_ROWS;
     App.cols := SPRITE_COLS; App.rows := SPRITE_ROWS;
     App.frames := SPRITE_COLS * SPRITE_ROWS;
     App.anim_step_ms_base := 1000 `quot` SPRITE_FPS;
     App.anim_step_ms_eff := 1000 `quot` SPRITE_FPS;
     App.ms_accum := 0; App.last_ms := 1000; App.frame := 0;
     App.x := x; App.y := y; App.vx := vx; App.vy := vy;
     App.rot := 0; App.scale := scale; App.scale_idx := idx;
     App.black := 0;
     App.prev_dst := {| Rect.x := 0; Rect.y := 0; Rect.w := 0; Rect.h := 0 |};
     App.has_prev := false; App.is565 := true; App.key565 := gray565 |}.

Definition built (a : App) : App :=
  match build_rotations_and_colorkey a with
  | Done (true, a') => a'
  | _ => a
  end.

(** Scale 2.0 on a 64 x 48 window, moving at (1.8f, 1.4f). *)
Definition app : App :=
  built (app_on 64 48 sheet 3 (F32.lit 2 0) (F32.of_int 30) (F32.of_int 22)
           (F32.lit 15099494 (-23)) (F32.lit 11744051 (-23))).

(** A sheet of 4 x 4 pixels: narrower than its 8 columns. *)
Definition thin : App :=
  built (app_on 64 48 (make_565 4 4 (λ x y, 1000 + 4 * y + x)) 3 (F32.lit 2 0)
           (F32.of_int 30) (F32.of_int 22)
           (F32.lit 15099494 (-23)) (F32.lit 11744051 (-23))).

(** The sheet of [a] for rotation [i]. *)
Definition sheet_of (a : App) (i : Z) : SDL_Surface :=
  match sheet_at a i with
  | Done s => s
  | _ => sheet
  end.

(** The surface [create] returns for RGB565. *)
Definition blank (w h : Z) : SDL_Surface :=
  match create w h SDL_PIXELFORMAT_RGB565 with
  | Some d => d
  | None => sheet
  end.

(** A 16 x 8 sheet without a transparent pixel, and a 64 x 48 window
    filled with the value 7. *)
Definition opaque : SDL_Surface := make_565 16 8 (λ x y, 1000 + 16 * y + x).
Definition window7 : SDL_Surface := make_565 64 48 (λ _ _, 7).

(** A 2 x 2 rectangle of the sheet and a corner in the window. *)
Definition rect_2x2 : SDL_Rect :=
  {| Rect.x := 2; Rect.y := 2; Rect.w := 2; Rect.h := 2 |}.
Definition corner : SDL_Rect :=
  {| Rect.x := 10; Rect.y := 20; Rect.w := 4; Rect.h := 4 |}.

Definition rgb565 : SDL_PixelFormatDetails :=
  {| pf_format := SDL_PIXELFORMAT_RGB565; bytes_per_pixel := 2 |}.

(** A sheet of 17 x 8 pixels without a transparent pixel: frames are
    17 / 8 = 2 pixels wide and the last column takes the remainder. *)
Definition ragged_sheet : SDL_Surface :=
  make_565 17 8 (λ x y, 1000 + 17 * y + x).

(** Showing frame 7, the last of the first row, at scale 2.0 resp. 0.5. *)
Definition ragged : App :=
  App.set_frame 7
    (built (app_on 64 48 ragged_sheet 3 (F32.lit 2 0)
              (F32.of_int 10) (F32.of_int 20) (F32.lit 1 0) (F32.lit 1 0))).

Definition ragged_half : App :=
  App.set_frame 7
    (built (app_on 64 48 ragged_sheet 0 (F32.lit 1 (-1))
              (F32.of_int 10) (F32.of_int 20) (F32.lit 1 0) (F32.lit 1 0))).

(** Scale 1.0: the tick draws with [SDL_BlitSurface], which on this
    platform reports failure. *)
Definition unscaled : App :=
  built (app_on 64 48 sheet 1 (F32.lit 1 0) (F32.of_int 30) (F32.of_int 22)
           (F32.lit 15099494 (-23)) (F32.lit 11744051 (-23))).

(** Scale 6.0 on an 8 x 6 window: the 12 x 12 sprite is larger than the
    window.  At the origin, moving at (-2, 1). *)
Definition crowded : App :=
  built (app_on 8 6 sheet 9 (F32.lit 6 0) (F32.of_int 0) (F32.of_int 0)
           (F32.lit (-2) 0) (F32.lit 1 0)).

(** In the lower left corner of the 64 x 48 window, moving left and down at
    (-1.8f, 1.4f): the 4 x 4 sprite at (0, 44) hits the left and the bottom
    edge in one tick. *)
Definition cornered : App :=
  built (app_on 64 48 sheet 3 (F32.lit 2 0) (F32.of_int 0) (F32.of_int 44)
           (F32.lit (-15099494) (-23)) (F32.lit 11744051 (-23))).

End Ref.

(* ===================================================================== *)
(** ** Outcomes and loops: basic facts *)
(* ===================================================================== *)

(** Closed goals about concrete data. *)
Ltac by_computation :=
  vm_compute; repeat split; first [reflexivity | discriminate].

(** Goals [∃ r, run = Done r ∧ facts about r] for a closed [run]. *)
Ltac by_running :=
  eexists; split; [vm_compute; reflexivity|];
  repeat split; vm_compute; reflexivity.

Lemma bind_Done {A B : Type} (f : A → outcome B) (a : A) :
  (Done a ≫= f) = f a.
Proof. reflexivity. Qed.


(** Reading a field of an updated state. *)
Ltac app_simpl :=
  cbn [App.win App.screen_w App.screen_h App.sheet_base App.sheet_rot
       App.tex_w App.tex_h App.fw App.fh App.cols App.rows App.frames
       App.anim_step_ms_base App.anim_step_ms_eff App.ms_accum App.last_ms
       App.frame App.x App.y App.vx App.vy App.rot App.scale App.scale_idx
       App.black App.prev_dst App.has_prev App.is565 App.key565 App.set_win
       App.set_sheet_rot App.set_anim_step_ms_eff App.set_ms_accum
       App.set_last_ms App.set_frame App.set_x App.set_y App.set_vx
       App.set_vy App.set_rot App.set_scale App.set_scale_idx
       App.set_prev_dst App.set_has_prev].
Ltac app_simpl_in H :=
  cbn [App.win App.screen_w App.screen_h App.sheet_base App.sheet_rot
       App.tex_w App.tex_h App.fw App.fh App.cols App.rows App.frames
       App.anim_step_ms_base App.anim_step_ms_eff App.ms_accum App.last_ms
       App.frame App.x App.y App.vx App.vy App.rot App.scale App.scale_idx
       App.black App.prev_dst App.has_prev App.is565 App.key565 App.set_win
       App.set_sheet_rot App.set_anim_step_ms_eff App.set_ms_accum
       App.set_last_ms App.set_frame App.set_x App.set_y App.set_vx
       App.set_vy App.set_rot App.set_scale App.set_scale_idx
       App.set_prev_dst App.set_has_prev] in H.

(** The loop of the animation step: [acc / s] iterations. *)
Lemma anim_loop_spec (fuel : nat) : ∀ a : App,
  0 < App.anim_step_ms_eff a →
  0 ≤ App.ms_accum a < 2 ^ 32 →
  0 ≤ App.frame a < App.frames a →
  App.ms_accum a / App.anim_step_ms_eff a < Z.of_nat fuel →
  ∃ a', anim_loop fuel a = Done a' ∧
    App.ms_accum a' = App.ms_accum a mod App.anim_step_ms_eff a ∧
    App.frame a' =
      (App.frame a + App.ms_accum a / App.anim_step_ms_eff a) mod App.frames a ∧
    App.anim_step_ms_eff a' = App.anim_step_ms_eff a ∧
    App.frames a' = App.frames a ∧
    App.last_ms a' = App.last_ms a.
Proof.
  induction fuel as [|f IH]; intros a Hs Hacc Hfr Hfuel.
  - exfalso. pose proof (Z.div_pos (App.ms_accum a) (App.anim_step_ms_eff a)).
    lia.
  - cbn [anim_loop].
    destruct (Z.leb_spec (App.anim_step_ms_eff a) (App.ms_accum a)) as [Hge|Hlt].
    + app_simpl. unfold c_mod.
      destruct (Z.eqb_spec (App.frames a) 0) as [?|_]; [lia|].
      rewrite bind_Done.
      set (s := App.anim_step_ms_eff a) in *.
      set (acc := App.ms_accum a) in *.
      assert (Hw : Uint32_wrap (acc - s) = acc - s).
      { unfold Uint32_wrap. apply Z.mod_small. lia. }
      assert (Hq : acc / s = (acc - s) / s + 1).
      { replace acc with ((acc - s) + 1 * s) at 1 by lia.
        rewrite Z.div_add by lia. lia. }
      assert (Hm : acc mod s = (acc - s) mod s).
      { replace acc with ((acc - s) + 1 * s) at 1 by lia.
        apply Z.mod_add. lia. }
      assert (Hrem : Z.rem (App.frame a + 1) (App.frames a)
                     = (App.frame a + 1) mod App.frames a).
      { apply Z.rem_mod_nonneg; lia. }
      destruct (IH (App.set_frame (Z.rem (App.frame a + 1) (App.frames a))
                      (App.set_ms_accum (Uint32_wrap (acc - s)) a)))
        as (a' & Hrun & Hacc' & Hfr' & Heff' & Hfs' & Hlast'); cbn.
      * exact Hs.
      * rewrite Hw. lia.
      * rewrite Hrem. apply Z.mod_pos_bound. lia.
      * fold s. rewrite Hw. lia.
      * exists a'. cbn in Hacc', Hfr', Heff', Hfs', Hlast'.
        fold s in Hacc', Hfr', Heff'. rewrite Hw in Hacc', Hfr'.
        split; [exact Hrun|].
        split; [rewrite Hacc', Hm; reflexivity|].
        split; [|auto].
        rewrite Hfr', Hrem, Hq.
        rewrite Zplus_mod_idemp_l. f_equal. lia.
    + exists a. split; [reflexivity|].
      rewrite Z.mod_small by lia.
      rewrite Z.div_small by lia.
      rewrite Z.add_0_r, Z.mod_small by lia. auto.
Qed.

(** C8. With an effective step [s > 0], the animation update of a tick adds
    the elapsed delta [d] to the accumulator (a [Uint32] addition), advances
    the frame index by [acc / s] steps modulo the frame count and leaves
    [acc mod s] in the accumulator: afterwards the accumulated time is below
    the step and the frame index is in [0, frames).  Any fuel above the
    number of steps is enough for the loop to finish. *)
Theorem animation_update (fuel : nat) (now : Z) (a : App) (d acc : Z) :
  d = Uint32_wrap (now - App.last_ms a) →
  acc = Uint32_wrap (App.ms_accum a + d) →
  0 < App.anim_step_ms_eff a →
  0 ≤ App.frame a < App.frames a →
  acc / App.anim_step_ms_eff a < Z.of_nat fuel →
  ∃ a', step_animation fuel now a = Done a' ∧
    App.ms_accum a' = acc mod App.anim_step_ms_eff a ∧
    App.frame a' = (App.frame a + acc / App.anim_step_ms_eff a) mod App.frames a ∧
    App.ms_accum a' < App.anim_step_ms_eff a' ∧
    0 ≤ App.frame a' < App.frames a' ∧
    App.last_ms a' = now.
Proof.
  intros Hd Hacc Hs Hfr Hfuel. unfold step_animation. app_simpl. rewrite <- Hd, <- Hacc.
  assert (Hrange : 0 ≤ acc < 2 ^ 32).
  { subst acc. unfold Uint32_wrap. apply Z.mod_pos_bound. lia. }
  destruct (anim_loop_spec fuel
              (App.set_ms_accum acc (App.set_last_ms now a)))
    as (a' & Hrun & Ha & Hf & Heff & Hfs & Hlast); app_simpl; try assumption.
  app_simpl_in Ha. app_simpl_in Hf. app_simpl_in Heff. app_simpl_in Hfs.
  app_simpl_in Hlast.
  exists a'. rewrite Heff, Hfs. repeat split; try assumption.
  - rewrite Ha. apply Z.mod_pos_bound. lia.
  - rewrite Hf. apply Z.mod_pos_bound. lia.
  - rewrite Hf. apply Z.mod_pos_bound. lia.
Qed.

(** C8 on the sample state: 100 ms elapsed with a 41 ms step advance two
    frames and leave 18 ms. *)
Lemma animation_update_witness :
  ∃ a', step_animation 3 1100 Ref.app = Done a' ∧
    App.ms_accum a' = 100 mod 41 ∧
    App.frame a' = (0 + 100 / 41) mod 32 ∧
    App.ms_accum a' < App.anim_step_ms_eff a' ∧
    0 ≤ App.frame a' < App.frames a' ∧
    App.last_ms a' = 1100.
Proof.
  apply (animation_update 3 1100 Ref.app 100 100);
    vm_compute; try reflexivity; try (split; congruence).
Defined.

(* ===================================================================== *)
(** ** binary32: agreement with the Standard Library *)
(* ===================================================================== *)

(** On every pair of sample values [F32.add], [F32.mul], [F32.ltb] and
    [F32.eqb] give what [SFadd], [SFmul], [SFltb] and [SFeqb] give at
    binary32, and [F32.of_int] rounds as [binary_normalize] does. *)
Example F32_agrees_with_SpecFloat : F32Spec.agree = true.
Proof. vm_compute. reflexivity. Qed.

(* ===================================================================== *)
(** ** binary32 rounding: exact cases and a lower bound *)
(* ===================================================================== *)

Lemma pow2_pos (e : Z) : 0 ≤ e → 0 < 2 ^ e.
Proof. intros. apply Z.pow_pos_nonneg; lia. Qed.

Lemma pow2_split (a b : Z) : 0 ≤ a → 0 ≤ b → 2 ^ (a + b) = 2 ^ a * 2 ^ b.
Proof. intros. apply Z.pow_add_r; lia. Qed.

(** Rounding never goes below the truncated quotient. *)
Lemma rne_ge_div (n sh : Z) : n / 2 ^ sh ≤ F32.rne n sh.
Proof.
  unfold F32.rne.
  repeat match goal with |- context [if ?c then _ else _] => destruct c end;
    lia.
Qed.

(** A multiple of [2^sh] is not changed. *)
Lemma rne_exact (q sh : Z) : 0 ≤ sh → F32.rne (q * 2 ^ sh) sh = q.
Proof.
  intros Hsh. pose proof (pow2_pos sh Hsh) as Hp. unfold F32.rne.
  rewrite Z.mod_mul by lia. rewrite Z.div_mul by lia.
  destruct (Z.ltb_spec (2 * 0) (2 ^ sh)); [reflexivity | lia].
Qed.

(** A magnitude with at most 24 significant bits is representable:
    rounding [m * 2^j] at scale [k <= j] is exact. *)
Lemma round_mag_exact (m j k : Z) :
  0 ≤ m < 2 ^ 24 → 0 ≤ k ≤ j → F32.round_mag (m * 2 ^ j) k = m * 2 ^ (j - k).
Proof.
  intros Hm Hk. unfold F32.round_mag.
  set (sh := Z.max k (Z.log2 (m * 2 ^ j) - 23)).
  assert (Hsh : k ≤ sh ≤ j).
  { subst sh. destruct (Z.eq_dec m 0) as [->|Hm0].
    - rewrite Z.mul_0_l. change (Z.log2 0) with 0. lia.
    - rewrite Z.log2_mul_pow2 by lia.
      assert (Z.log2 m < 24) by (apply Z.log2_lt_pow2; lia). lia. }
  replace (m * 2 ^ j) with ((m * 2 ^ (j - sh)) * 2 ^ sh).
  - rewrite rne_exact by lia.
    rewrite <- Z.mul_assoc, <- pow2_split by lia. f_equal. f_equal. lia.
  - rewrite <- Z.mul_assoc, <- pow2_split by lia. f_equal. f_equal. lia.
Qed.

(** Rounding is not below a representable magnitude that the exact value
    reaches. *)
Lemma round_mag_lower (m j n : Z) :
  0 < m ≤ 2 ^ 24 → 0 ≤ j → m * 2 ^ j ≤ n → m * 2 ^ j ≤ F32.round_mag n 0.
Proof.
  intros Hm Hj Hn. unfold F32.round_mag.
  pose proof (pow2_pos j Hj) as Hpj.
  assert (Hn0 : 0 < n) by nia.
  set (l := Z.log2 n). set (sh := Z.max 0 (l - 23)).
  rewrite Z.sub_0_r.
  assert (Hsh0 : 0 ≤ sh) by lia.
  pose proof (pow2_pos sh Hsh0) as Hps.
  pose proof (rne_ge_div n sh) as Hr.
  assert (Hfloor : ∀ c, 0 ≤ c → c * 2 ^ sh ≤ n → c * 2 ^ sh ≤ F32.rne n sh * 2 ^ sh).
  { intros c Hc Hle.
    assert (c ≤ n / 2 ^ sh) by (apply Z.div_le_lower_bound; lia). nia. }
  destruct (Z.le_gt_cases sh j) as [Hle|Hgt].
  - replace (m * 2 ^ j) with ((m * 2 ^ (j - sh)) * 2 ^ sh) in *.
    + apply Hfloor; [|exact Hn].
      pose proof (pow2_pos (j - sh)). nia.
    + rewrite <- Z.mul_assoc, <- pow2_split by lia. f_equal. f_equal. lia.
  - assert (Hl : j + 24 ≤ l) by lia.
    assert (Hnl : 2 ^ l ≤ n) by (apply Z.log2_spec; lia).
    assert (Hl0 : 0 ≤ l) by lia.
    assert (HK : m * 2 ^ j ≤ 2 ^ l).
    { replace l with ((l - j) + j) by lia. rewrite pow2_split by lia.
      assert (2 ^ 24 ≤ 2 ^ (l - j)) by (apply Z.pow_le_mono_r; lia). nia. }
    assert (Hsl : sh ≤ l) by lia.
    assert (H2 : 2 ^ (l - sh) * 2 ^ sh ≤ F32.rne n sh * 2 ^ sh).
    { apply Hfloor.
      - pose proof (pow2_pos (l - sh)). lia.
      - rewrite <- pow2_split by lia. replace (l - sh + sh) with l by lia.
        exact Hnl. }
    rewrite <- pow2_split in H2 by lia.
    replace (l - sh + sh) with l in H2 by lia. lia.
Qed.

(** Integers below 2^24 in magnitude convert exactly. *)
Lemma of_int_exact (z : Z) :
  - 2 ^ 24 < z < 2 ^ 24 → F32.of_int z = F32.Fin (z * 2 ^ 149).
Proof.
  intros Hz. unfold F32.of_int, F32.round.
  rewrite round_mag_exact by lia. rewrite Z.sub_0_r.
  assert (Hov : Z.abs z * 2 ^ 149 < F32.overflow).
  { unfold F32.overflow. change 277 with (128 + 149).
    rewrite pow2_split by lia.
    assert (2 ^ 24 < 2 ^ 128) by (apply Z.pow_lt_mono_r; lia).
    pose proof (pow2_pos 149). nia. }
  destruct (Z.leb_spec F32.overflow (Z.abs z * 2 ^ 149)); [lia|].
  f_equal. destruct (Z.ltb_spec z 0); lia.
Qed.

(* ===================================================================== *)
(** ** Move and bounce *)
(* ===================================================================== *)

Lemma to_int_of_units (k : Z) :
  - 2 ^ 31 ≤ k ≤ 2 ^ 31 - 1 → F32.to_int (F32.Fin (k * 2 ^ 149)) = Done k.
Proof.
  intros Hk. unfold F32.to_int.
  rewrite Z.quot_mul by (pose proof (pow2_pos 149); lia).
  destruct (Z.leb_spec (- 2 ^ 31) k); [|lia].
  destruct (Z.leb_spec k (2 ^ 31 - 1)); [reflexivity|lia].
Qed.

(** [move_and_bounce] treats the two axes alike and apart. *)
Lemma move_and_bounce_axes (dw dh : Z) (a : App) :
  let a' := move_and_bounce dw dh a in
  (App.x a', App.vx a', hit_low_x a, hit_high_x dw a)
    = bounce_axis (App.x a) (App.vx a) dw (App.screen_w a) ∧
  (App.y a', App.vy a', hit_low_y a, hit_high_y dh a)
    = bounce_axis (App.y a) (App.vy a) dh (App.screen_h a).
Proof.
  unfold move_and_bounce, bounce_axis, hit_high_x, hit_high_y, hit_low_x,
    hit_low_y.
  repeat (app_simpl;
    match goal with
    | |- context [if ?c then _ else _] =>
        lazymatch c with
        | context [if _ then _ else _] => fail
        | _ => destruct c
        end
    end).
  all: app_simpl; split; reflexivity.
Qed.

(** One axis: when the draw size fits the screen and the moved position is
    a number, the new position truncates to a pixel column inside the
    screen, at most one of the two tests fires, and the velocity is negated
    exactly when one does. *)
Lemma bounce_axis_spec (p v : float) (d s : Z) :
  0 ≤ d ≤ s → s < 2 ^ 24 → F32.add p v ≠ F32.NaN →
  ∀ p3 v3 lo hi, bounce_axis p v d s = (p3, v3, lo, hi) →
  (∃ q, F32.to_int p3 = Done q ∧ 0 ≤ q ∧ q + d ≤ s) ∧
  v3 = (if lo || hi then F32.neg v else v) ∧
  lo && hi = false.
Proof.
  intros Hd Hs Hnan p3 v3 lo hi. unfold bounce_axis.
  rewrite !of_int_exact by lia. rewrite Z.mul_0_l.
  pose proof (pow2_pos 149 ltac:(lia)) as HU.
  assert (Hclamp : ∃ q, F32.to_int (F32.Fin ((s - d) * 2 ^ 149)) = Done q
                        ∧ 0 ≤ q ∧ q + d ≤ s).
  { exists (s - d). rewrite to_int_of_units by lia. split; [reflexivity|lia]. }
  assert (Hzero : F32.gtb (F32.add (F32.Fin 0) (F32.Fin (d * 2 ^ 149)))
                    (F32.Fin (s * 2 ^ 149)) = false).
  { change (F32.Fin (d * 2 ^ 149)) with (F32.lit d 0) at 1.
    unfold F32.add, F32.lit. rewrite Z.add_0_l, Z.add_0_r.
    destruct (Z.ltb_spec (d * 2 ^ 149) 0); [nia|].
    rewrite Z.abs_eq by nia.
    pose proof (of_int_exact d ltac:(lia)) as Hex.
    unfold F32.of_int in Hex. rewrite Z.abs_eq in Hex by lia.
    destruct (Z.ltb_spec d 0); [lia|]. rewrite Hex.
    unfold F32.gtb, F32.ltb. apply Z.ltb_ge. nia. }
  destruct (F32.add p v) as [|sg|n] eqn:Hp1; [congruence| |].
  - (* an infinite moved position *)
    destruct sg; cbn [F32.ltb].
    + rewrite Hzero. intros [= <- <- <- <-]. cbn [orb andb].
      split; [|auto]. exists 0. rewrite <- (Z.mul_0_l (2 ^ 149)).
      rewrite to_int_of_units by lia. split; [reflexivity|lia].
    + cbn [F32.add F32.gtb F32.ltb negb].
      intros [= <- <- <- <-]. cbn [orb andb]. auto.
  - (* a finite moved position *)
    cbn [F32.ltb].
    destruct (Z.ltb_spec n 0) as [Hneg|Hpos].
    + rewrite Hzero. intros [= <- <- <- <-]. cbn [orb andb].
      split; [|auto]. exists 0. rewrite <- (Z.mul_0_l (2 ^ 149)).
      rewrite to_int_of_units by lia. split; [reflexivity|lia].
    + destruct (F32.gtb (F32.add (F32.Fin n) (F32.Fin (d * 2 ^ 149)))
                  (F32.Fin (s * 2 ^ 149))) eqn:Hhi;
        intros [= <- <- <- <-]; cbn [orb andb]; [auto|].
      split; [|auto].
      assert (Hn : n < (s - d + 1) * 2 ^ 149).
      { destruct (Z.lt_ge_cases n ((s - d + 1) * 2 ^ 149)) as [|Hge]; [assumption|].
        exfalso. revert Hhi. unfold F32.add, F32.round.
        assert (Hsum : (s + 1) * 2 ^ 149 ≤ n + d * 2 ^ 149) by lia.
        destruct (Z.ltb_spec (n + d * 2 ^ 149) 0); [nia|].
        rewrite Z.abs_eq by lia.
        pose proof (round_mag_lower (s + 1) 149 (n + d * 2 ^ 149)
                      ltac:(lia) ltac:(lia) Hsum) as Hlow.
        destruct (F32.overflow <=? F32.round_mag (n + d * 2 ^ 149) 0).
        - discriminate.
        - unfold F32.gtb, F32.ltb. intros Hlt. apply Z.ltb_ge in Hlt. lia. }
      exists (n / 2 ^ 149).
      assert (Hq : 0 ≤ n / 2 ^ 149 ≤ s - d).
      { split; [apply Z.div_pos; lia|].
        assert (n / 2 ^ 149 < s - d + 1)
          by (apply Z.div_lt_upper_bound; lia). lia. }
      unfold F32.to_int. rewrite Z.quot_div_nonneg by lia.
      destruct (Z.leb_spec (- 2 ^ 31) (n / 2 ^ 149)); [|lia].
      destruct (Z.leb_spec (n / 2 ^ 149) (2 ^ 31 - 1)); [|lia].
      split; [reflexivity|lia].
Qed.

(** C3, as amended.  When the draw size fits the screen, the screen is
    less than 2^24 pixels in each direction and the moved position is a number,
    then after "move & bounce" the draw rectangle -- the position cast to
    [int], of size [dw] x [dh] -- lies within the screen; on each axis at
    most one of the two edge tests fires, and the velocity of an axis is
    negated exactly when a test of that axis fires. *)
Theorem bounce_in_screen (dw dh : Z) (a : App) :
  0 ≤ dw ≤ App.screen_w a → App.screen_w a < 2 ^ 24 →
  0 ≤ dh ≤ App.screen_h a → App.screen_h a < 2 ^ 24 →
  F32.add (App.x a) (App.vx a) ≠ F32.NaN →
  F32.add (App.y a) (App.vy a) ≠ F32.NaN →
  ∃ px py,
    F32.to_int (App.x (move_and_bounce dw dh a)) = Done px ∧
    F32.to_int (App.y (move_and_bounce dw dh a)) = Done py ∧
    (0 ≤ px ∧ px + dw ≤ App.screen_w a) ∧
    (0 ≤ py ∧ py + dh ≤ App.screen_h a) ∧
    hit_low_x a && hit_high_x dw a = false ∧
    hit_low_y a && hit_high_y dh a = false ∧
    App.vx (move_and_bounce dw dh a)
      = (if hit_low_x a || hit_high_x dw a
         then F32.neg (App.vx a) else App.vx a) ∧
    App.vy (move_and_bounce dw dh a)
      = (if hit_low_y a || hit_high_y dh a
         then F32.neg (App.vy a) else App.vy a).
Proof.
  intros Hdw Hsw Hdh Hsh Hx Hy.
  destruct (move_and_bounce_axes dw dh a) as [Hax Hay].
  destruct (bounce_axis_spec _ _ _ _ Hdw Hsw Hx _ _ _ _ (eq_sym Hax))
    as ((px & Hpx & Hpx0 & Hpx1) & Hvx & Honce_x).
  destruct (bounce_axis_spec _ _ _ _ Hdh Hsh Hy _ _ _ _ (eq_sym Hay))
    as ((py & Hpy & Hpy0 & Hpy1) & Hvy & Honce_y).
  exists px, py. repeat split; assumption.
Qed.

(** C3 on a state that hits two edges.  The 4 x 4 sprite at (0, 44) on the
    64 x 48 window moves by (-1.8f, 1.4f): the low test of x and the high
    test of y fire, the position is clamped to (0, 44) and both velocity
    components are negated, each once. *)
Lemma bounce_in_screen_witness :
  (hit_low_x Ref.cornered = true ∧ hit_high_x 4 Ref.cornered = false ∧
   hit_low_y Ref.cornered = false ∧ hit_high_y 4 Ref.cornered = true ∧
   F32.to_int (F32.add (App.x Ref.cornered) (App.vx Ref.cornered))
     = Done (-1) ∧
   F32.to_int (F32.add (App.y Ref.cornered) (App.vy Ref.cornered))
     = Done 45 ∧
   F32.to_int (App.x (move_and_bounce 4 4 Ref.cornered)) = Done 0 ∧
   F32.to_int (App.y (move_and_bounce 4 4 Ref.cornered)) = Done 44 ∧
   App.vx (move_and_bounce 4 4 Ref.cornered) = F32.lit 15099494 (-23) ∧
   App.vy (move_and_bounce 4 4 Ref.cornered) = F32.lit (-11744051) (-23)) ∧
  ∃ px py,
    F32.to_int (App.x (move_and_bounce 4 4 Ref.cornered)) = Done px ∧
    F32.to_int (App.y (move_and_bounce 4 4 Ref.cornered)) = Done py ∧
    (0 ≤ px ∧ px + 4 ≤ App.screen_w Ref.cornered) ∧
    (0 ≤ py ∧ py + 4 ≤ App.screen_h Ref.cornered) ∧
    hit_low_x Ref.cornered && hit_high_x 4 Ref.cornered = false ∧
    hit_low_y Ref.cornered && hit_high_y 4 Ref.cornered = false ∧
    App.vx (move_and_bounce 4 4 Ref.cornered)
      = (if hit_low_x Ref.cornered || hit_high_x 4 Ref.cornered
         then F32.neg (App.vx Ref.cornered) else App.vx Ref.cornered) ∧
    App.vy (move_and_bounce 4 4 Ref.cornered)
      = (if hit_low_y Ref.cornered || hit_high_y 4 Ref.cornered
         then F32.neg (App.vy Ref.cornered) else App.vy Ref.cornered).
Proof.
  split; [vm_compute; repeat split; reflexivity|].
  apply (bounce_in_screen 4 4 Ref.cornered); vm_compute;
    first [ discriminate | split; discriminate | reflexivity ].
Defined.

(** C3 as stated fails when the sprite is larger than the screen.  At scale
    6.0 the 2 x 2 frames draw 12 x 12 on the 8 x 6 window; from x = 0 with
    velocity -2 the low test sets x to 0, the high test then sets it to
    8 - 12 = -4: the rectangle starts left of the screen, both tests of the
    axis fire in one tick and the velocity is back to what it was. *)
Lemma bounce_counterexample :
  draw_size_for_rot Ref.crowded (App.rot Ref.crowded) = Done (12, 12) ∧
  App.screen_w Ref.crowded = 8 ∧
  F32.to_int (App.x (move_and_bounce 12 12 Ref.crowded)) = Done (-4) ∧
  - 4 < 0 ∧
  hit_low_x Ref.crowded = true ∧
  hit_high_x 12 Ref.crowded = true ∧
  App.vx (move_and_bounce 12 12 Ref.crowded) = App.vx Ref.crowded.
Proof. vm_compute. repeat split; reflexivity. Qed.

(* ===================================================================== *)
(** ** Draw sizes and the scale presets *)
(* ===================================================================== *)

(** For a scale that is a multiple of one half and a product below 2^24 the
    float computation [(int)(n * scale + 0.5f)] is exact. *)
Lemma scaled_size_halves (n h : Z) :
  0 ≤ n → 0 < h → n * h + 1 < 2 ^ 24 →
  scaled_size n (F32.Fin (h * 2 ^ 148)) = Done ((n * h + 1) / 2).
Proof.
  intros Hn Hh Hb. unfold scaled_size.
  assert (Hn24 : n < 2 ^ 24) by nia.
  rewrite of_int_exact by lia.
  pose proof (pow2_pos 148 ltac:(lia)) as H148.
  pose proof (pow2_pos 149 ltac:(lia)) as H149.
  assert (Hsmall : ∀ m, 0 ≤ m < 2 ^ 24 → m * 2 ^ 148 < F32.overflow).
  { intros m Hm. unfold F32.overflow. change 277 with (129 + 148).
    rewrite (pow2_split 129 148) by lia.
    assert (2 ^ 24 < 2 ^ 129) by (apply Z.pow_lt_mono_r; lia). nia. }
  assert (Hmul : F32.mul (F32.Fin (n * 2 ^ 149)) (F32.Fin (h * 2 ^ 148))
                 = F32.Fin ((n * h) * 2 ^ 148)).
  { unfold F32.mul, F32.round.
    replace (n * 2 ^ 149 * (h * 2 ^ 148)) with ((n * h) * 2 ^ 297).
    2:{ change 297 with (149 + 148). rewrite (pow2_split 149 148) by lia. ring. }
    assert (0 ≤ n * h) by nia.
    pose proof (pow2_pos 297 ltac:(lia)).
    rewrite Z.abs_eq by nia.
    rewrite round_mag_exact by lia. change (297 - 149) with 148.
    pose proof (Hsmall (n * h) ltac:(lia)).
    destruct (Z.leb_spec F32.overflow (n * h * 2 ^ 148)); [lia|].
    destruct (Z.ltb_spec (n * h * 2 ^ 297) 0); [nia|reflexivity]. }
  rewrite Hmul. unfold F32.lit. change (149 + -1) with 148.
  unfold F32.add, F32.round.
  replace (n * h * 2 ^ 148 + 1 * 2 ^ 148) with ((n * h + 1) * 2 ^ 148) by ring.
  assert (0 ≤ n * h) by nia.
  rewrite Z.abs_eq by nia.
  rewrite round_mag_exact by lia. rewrite Z.sub_0_r.
  pose proof (Hsmall (n * h + 1) ltac:(lia)).
  destruct (Z.leb_spec F32.overflow ((n * h + 1) * 2 ^ 148)); [lia|].
  destruct (Z.ltb_spec ((n * h + 1) * 2 ^ 148) 0); [nia|].
  unfold F32.to_int.
  assert (Hq : ((n * h + 1) * 2 ^ 148) `quot` 2 ^ 149 = (n * h + 1) / 2).
  { rewrite Z.quot_div_nonneg by nia.
    change 149 with (1 + 148). rewrite (pow2_split 1 148) by lia.
    change (2 ^ 1) with 2.
    rewrite Z.div_mul_cancel_r by lia. reflexivity. }
  rewrite Hq.
  assert (0 ≤ (n * h + 1) / 2 < 2 ^ 24).
  { split; [apply Z.div_pos; lia | apply Z.div_lt_upper_bound; lia]. }
  destruct (Z.leb_spec (- 2 ^ 31) ((n * h + 1) / 2)); [|lia].
  destruct (Z.leb_spec ((n * h + 1) / 2) (2 ^ 31 - 1)); [reflexivity|lia].
Qed.

Lemma SCALE_OPTIONS_halves :
  SCALE_OPTIONS = map (λ h, F32.Fin (h * 2 ^ 148)) scale_halves.
Proof. vm_compute. reflexivity. Qed.

Lemma scale_option_halves (i : Z) :
  0 ≤ i < SCALE_COUNT →
  ∃ h, 1 ≤ h ≤ 12 ∧ scale_option i = Done (F32.Fin (h * 2 ^ 148)).
Proof.
  intros Hi. change SCALE_COUNT with 10 in Hi. unfold scale_option.
  destruct (Z.ltb_spec i 0); [lia|]. rewrite SCALE_OPTIONS_halves.
  rewrite list_lookup_fmap.
  destruct (scale_halves !! Z.to_nat i) as [h|] eqn:Hh.
  - exists h. split; [|reflexivity].
    apply list_elem_of_lookup_2 in Hh. unfold scale_halves in Hh.
    repeat (apply elem_of_cons in Hh; destruct Hh as [->|Hh]; [lia|]).
    apply elem_of_nil in Hh. contradiction.
  - apply lookup_ge_None in Hh. cbn in Hh. lia.
Qed.

Lemma draw_size_defined (a : App) (rot h : Z) :
  0 ≤ App.fw a < 2 ^ 20 → 0 ≤ App.fh a < 2 ^ 20 →
  App.scale a = F32.Fin (h * 2 ^ 148) → 1 ≤ h ≤ 12 →
  ∃ dw dh, draw_size_for_rot a rot = Done (dw, dh) ∧
    (let '(_, _, fw_r, fh_r) := grid_for_rot a rot in
     dw = (fw_r * h + 1) / 2 ∧ dh = (fh_r * h + 1) / 2).
Proof.
  intros Hfw Hfh Hsc Hh. unfold draw_size_for_rot, grid_for_rot.
  rewrite Hsc.
  assert (2 ^ 20 * 12 + 1 < 2 ^ 24) by (vm_compute; reflexivity).
  destruct ((Z.land rot 3 =? 0) || (Z.land rot 3 =? 2));
    rewrite !scaled_size_halves by nia; cbn [mbind outcome_bind];
    eexists _, _; split; try reflexivity; split; reflexivity.
Qed.

(** [clamp_xy_for_rot] changes the position only. *)
Lemma clamp_xy_for_rot_spec (a : App) (dw dh : Z) :
  draw_size_for_rot a (App.rot a) = Done (dw, dh) →
  ∃ a', clamp_xy_for_rot a = Done a' ∧
    App.scale_idx a' = App.scale_idx a ∧ App.scale a' = App.scale a ∧
    App.fw a' = App.fw a ∧ App.fh a' = App.fh a ∧
    App.rot a' = App.rot a ∧ App.has_prev a' = App.has_prev a ∧
    App.cols a' = App.cols a ∧ App.rows a' = App.rows a.
Proof.
  intros Hd. unfold clamp_xy_for_rot. rewrite Hd. cbn [mbind outcome_bind].
  eexists. split; [reflexivity|].
  repeat (app_simpl;
    match goal with
    | |- context [if ?c then _ else _] =>
        lazymatch c with
        | context [if _ then _ else _] => fail
        | _ => destruct c
        end
    end).
  all: app_simpl; repeat split; reflexivity.
Qed.

Lemma draw_size_for_rot_ext (a b : App) (rot : Z) :
  App.fw b = App.fw a → App.fh b = App.fh a → App.scale b = App.scale a →
  App.cols b = App.cols a → App.rows b = App.rows a →
  draw_size_for_rot b rot = draw_size_for_rot a rot.
Proof.
  intros H1 H2 H3 H4 H5. unfold draw_size_for_rot, grid_for_rot.
  rewrite H1, H2, H3, H4, H5. reflexivity.
Qed.

Section ScaleCycle.
Context `{sdl : SDL_Platform}.

(** One CycleScale command. *)
Lemma app_key_S_spec (a : App) :
  0 ≤ App.scale_idx a →
  0 ≤ App.fw a < 2 ^ 20 → 0 ≤ App.fh a < 2 ^ 20 →
  ∃ a', app_key SDL_SCANCODE_S a = Done (SDL_APP_CONTINUE, a') ∧
    App.scale_idx a' = (App.scale_idx a + 1) mod SCALE_COUNT ∧
    scale_option (App.scale_idx a') = Done (App.scale a') ∧
    App.fw a' = App.fw a ∧ App.fh a' = App.fh a ∧
    App.has_prev a' = false.
Proof.
  intros Hi Hfw Hfh. unfold app_key. app_simpl.
  assert (Hrem : (App.scale_idx a + 1) `rem` SCALE_COUNT
                 = (App.scale_idx a + 1) mod SCALE_COUNT).
  { apply Z.rem_mod_nonneg; [lia | reflexivity]. }
  rewrite Hrem.
  set (i' := (App.scale_idx a + 1) mod SCALE_COUNT).
  assert (Hi' : 0 ≤ i' < SCALE_COUNT)
    by (apply Z.mod_pos_bound; reflexivity).
  destruct (scale_option_halves i' Hi') as (h & Hh & Hopt).
  rewrite Hopt, bind_Done. cbv beta zeta.
  set (a1 := App.set_has_prev false _).
  destruct (draw_size_defined a1 (App.rot a1) h) as (dw & dh & Hds & _);
    try (subst a1; unfold update_anim_budget; app_simpl; first [assumption|reflexivity]).
  destruct (clamp_xy_for_rot_spec a1 dw dh Hds)
    as (a2 & Hcl & Hidx & Hsc & Hfw2 & Hfh2 & Hrot2 & Hhp & Hc2 & Hr2).
  rewrite Hcl. cbn [mbind outcome_bind].
  rewrite (draw_size_for_rot_ext a1 a2) by assumption.
  rewrite Hrot2, Hds. cbn [mbind outcome_bind].
  eexists. split; [reflexivity|]. app_simpl.
  rewrite Hidx, Hsc, Hfw2, Hfh2, Hhp. subst a1.
  unfold update_anim_budget. app_simpl. rewrite Hopt. auto.
Qed.

End ScaleCycle.

Lemma find_closest_default : find_closest_scale_index DEFAULT_SCALE = Done 3.
Proof. vm_compute. reflexivity. Qed.

Section ScaleCycleClaim.
Context `{sdl : SDL_Platform}.

(** C9.  The initial scale is the preset closest to the default 2.0: index
    3, value 2.0.  From there three CycleScale commands succeed, each sets
    the index to (index + 1) mod N and the scale to the preset at the new
    index, and the third leaves the scale at 3.5 (index 6). *)
Theorem scale_cycle_three (a : App) :
  0 ≤ App.fw a < 2 ^ 20 → 0 ≤ App.fh a < 2 ^ 20 →
  ∃ a0 a1 a2 a3,
    init_scale a = Done a0 ∧
    find_closest_scale_index DEFAULT_SCALE = Done (App.scale_idx a0) ∧
    App.scale_idx a0 = 3 ∧ App.scale a0 = F32.lit 2 0 ∧
    app_key SDL_SCANCODE_S a0 = Done (SDL_APP_CONTINUE, a1) ∧
    app_key SDL_SCANCODE_S a1 = Done (SDL_APP_CONTINUE, a2) ∧
    app_key SDL_SCANCODE_S a2 = Done (SDL_APP_CONTINUE, a3) ∧
    App.scale_idx a1 = (App.scale_idx a0 + 1) mod SCALE_COUNT ∧
    App.scale_idx a2 = (App.scale_idx a1 + 1) mod SCALE_COUNT ∧
    App.scale_idx a3 = (App.scale_idx a2 + 1) mod SCALE_COUNT ∧
    scale_option (App.scale_idx a1) = Done (App.scale a1) ∧
    scale_option (App.scale_idx a2) = Done (App.scale a2) ∧
    scale_option (App.scale_idx a3) = Done (App.scale a3) ∧
    App.scale_idx a3 = 6 ∧ App.scale a3 = F32.lit 7 (-1).
Proof.
  intros Hfw Hfh.
  assert (Hinit : ∃ a0, init_scale a = Done a0 ∧ App.scale_idx a0 = 3 ∧
            App.scale a0 = F32.lit 2 0 ∧
            App.fw a0 = App.fw a ∧ App.fh a0 = App.fh a).
  { unfold init_scale. rewrite find_closest_default.
    cbn [mbind outcome_bind]. app_simpl.
    change (scale_option 3) with (Done (F32.lit 2 0)).
    cbn [mbind outcome_bind]. eexists. split; [reflexivity|].
    unfold update_anim_budget. app_simpl. auto. }
  destruct Hinit as (a0 & Hi0 & Hidx0 & Hsc0 & Hfw0 & Hfh0).
  destruct (app_key_S_spec a0) as (a1 & Hk1 & Hidx1 & Hsc1 & Hfw1 & Hfh1 & _);
    [lia | lia | lia |].
  assert (Hi1 : App.scale_idx a1 = 4) by (rewrite Hidx1, Hidx0; reflexivity).
  destruct (app_key_S_spec a1) as (a2 & Hk2 & Hidx2 & Hsc2 & Hfw2 & Hfh2 & _);
    [lia | lia | lia |].
  assert (Hi2 : App.scale_idx a2 = 5) by (rewrite Hidx2, Hi1; reflexivity).
  destruct (app_key_S_spec a2) as (a3 & Hk3 & Hidx3 & Hsc3 & Hfw3 & Hfh3 & _);
    [lia | lia | lia |].
  assert (Hi3 : App.scale_idx a3 = 6) by (rewrite Hidx3, Hi2; reflexivity).
  exists a0, a1, a2, a3.
  repeat (split; [first [assumption | rewrite Hidx0; apply find_closest_default] |]).
  rewrite Hi3 in Hsc3. change (scale_option 6) with (Done (F32.lit 7 (-1))) in Hsc3.
  congruence.
Qed.

End ScaleCycleClaim.

(** C9 on the sample state. *)
Lemma scale_cycle_three_witness :
  ∃ a0 a1 a2 a3,
    init_scale Ref.app = Done a0 ∧
    find_closest_scale_index DEFAULT_SCALE = Done (App.scale_idx a0) ∧
    App.scale_idx a0 = 3 ∧ App.scale a0 = F32.lit 2 0 ∧
    @app_key Ref.platform SDL_SCANCODE_S a0 = Done (SDL_APP_CONTINUE, a1) ∧
    @app_key Ref.platform SDL_SCANCODE_S a1 = Done (SDL_APP_CONTINUE, a2) ∧
    @app_key Ref.platform SDL_SCANCODE_S a2 = Done (SDL_APP_CONTINUE, a3) ∧
    App.scale_idx a1 = (App.scale_idx a0 + 1) mod SCALE_COUNT ∧
    App.scale_idx a2 = (App.scale_idx a1 + 1) mod SCALE_COUNT ∧
    App.scale_idx a3 = (App.scale_idx a2 + 1) mod SCALE_COUNT ∧
    scale_option (App.scale_idx a1) = Done (App.scale a1) ∧
    scale_option (App.scale_idx a2) = Done (App.scale a2) ∧
    scale_option (App.scale_idx a3) = Done (App.scale a3) ∧
    App.scale_idx a3 = 6 ∧ App.scale a3 = F32.lit 7 (-1).
Proof.
  apply (@scale_cycle_three Ref.platform Ref.app);
    vm_compute; split; congruence.
Defined.

(* ===================================================================== *)
(** ** The frame locator *)
(* ===================================================================== *)

Lemma axis_span_spec (W c n : Z) :
  0 ≤ W → 0 < n → 0 ≤ c < n →
  ∀ x w, axis_span W (W / n) c n = (x, w) →
  0 ≤ x ∧ 0 ≤ w ∧ x + w ≤ W ∧ (n ≤ W → 0 < w) ∧
  x = c * (W / n) ∧ (c < n - 1 → w = W / n).
Proof.
  intros HW Hn Hc x w. unfold axis_span.
  pose proof (Z.div_pos W n HW Hn) as Hf.
  pose proof (Z.mul_div_le W n Hn) as Hle.
  assert (Hx : 0 ≤ c * (W / n) ≤ (n - 1) * (W / n)) by nia.
  assert (Hpos : n ≤ W → 0 < W / n).
  { intros. apply Z.div_str_pos. lia. }
  destruct (Z.ltb_spec (c * (W / n)) 0); [lia|].
  destruct (Z.eqb_spec c (n - 1)) as [->|Hne].
  - destruct (Z.ltb_spec (W - (n - 1) * (W / n)) 0); [nia|].
    destruct (Z.ltb_spec W ((n - 1) * (W / n) + (W - (n - 1) * (W / n)))); [lia|].
    intros [= <- <-].
    repeat split; first [lia | intros Hw; specialize (Hpos Hw); nia].
  - destruct (Z.ltb_spec (W / n) 0); [lia|].
    destruct (Z.ltb_spec W (c * (W / n) + W / n)); [nia|].
    intros [= <- <-].
    repeat split; first [lia | nia | intros Hw; specialize (Hpos Hw); nia].
Qed.

(** The turned cell of a base cell lies in the turned grid. *)
Lemma map_cell_for_rot_range (a : App) (rot base_r base_c : Z) :
  0 ≤ rot ≤ 3 →
  0 ≤ base_r < App.rows a → 0 ≤ base_c < App.cols a →
  ∀ cols_r rows_r fw_r fh_r rr cc,
    grid_for_rot a rot = (cols_r, rows_r, fw_r, fh_r) →
    map_cell_for_rot a rot base_r base_c = (rr, cc) →
    0 ≤ rr < rows_r ∧ 0 ≤ cc < cols_r.
Proof.
  intros Hrot Hr Hc cols_r rows_r fw_r fh_r rr cc.
  unfold grid_for_rot, map_cell_for_rot.
  assert (Hcases : rot = 0 ∨ rot = 1 ∨ rot = 2 ∨ rot = 3) by lia.
  destruct Hcases as [-> | [-> | [-> | ->]]]; cbn;
    intros [= <- <- <- <-] [= <- <-]; lia.
Qed.

Lemma get_src_for_frame_rot_spans (a : App) (idx rot : Z) (sheet : SDL_Surface) :
  0 ≤ idx → 0 < App.cols a → 0 < App.rows a →
  0 ≤ Surface.w sheet → 0 ≤ Surface.h sheet → 0 ≤ rot ≤ 3 →
  sheet_at a rot = Done sheet →
  ∀ cols_r rows_r fw_r fh_r rr cc,
    grid_for_rot a rot = (cols_r, rows_r, fw_r, fh_r) →
    map_cell_for_rot a rot (idx / App.cols a) (idx mod App.cols a) = (rr, cc) →
    get_src_for_frame_rot a idx rot =
      Done {| Rect.x := fst (axis_span (Surface.w sheet)
                               (Surface.w sheet / cols_r) cc cols_r);
              Rect.y := fst (axis_span (Surface.h sheet)
                               (Surface.h sheet / rows_r) rr rows_r);
              Rect.w := snd (axis_span (Surface.w sheet)
                               (Surface.w sheet / cols_r) cc cols_r);
              Rect.h := snd (axis_span (Surface.h sheet)
                               (Surface.h sheet / rows_r) rr rows_r) |}.
Proof.
  intros Hidx Hcols Hrows HW HH Hrot Hsheet cols_r rows_r fw_r fh_r rr cc Hg Hm.
  unfold get_src_for_frame_rot. rewrite Hsheet. cbn [mbind outcome_bind].
  rewrite Hg.
  assert (Hcr : 0 < cols_r ∧ 0 < rows_r).
  { revert Hg. unfold grid_for_rot.
    destruct ((Z.land rot 3 =? 0) || (Z.land rot 3 =? 2));
      intros [= <- <- <- <-]; lia. }
  unfold c_div, c_mod.
  destruct (Z.eqb_spec cols_r 0); [lia|].
  destruct (Z.eqb_spec rows_r 0); [lia|].
  destruct (Z.eqb_spec (App.cols a) 0); [lia|].
  cbn [mbind outcome_bind].
  rewrite !Z.quot_div_nonneg by lia. rewrite Z.rem_mod_nonneg by lia.
  rewrite Hm. reflexivity.
Qed.

(** C5, as amended.  For a rotation in 0..3 and a frame index in
    [0, cols * rows), [get_src_for_frame_rot] returns a rectangle inside the
    turned sheet: x >= 0, y >= 0, x + w <= W, y + h <= H, with w >= 0 and
    h >= 0; w > 0 when the sheet is at least as wide as its number of
    columns and h > 0 when it is at least as high as its number of rows. *)
Theorem get_src_for_frame_rot_inside (a : App) (idx rot : Z)
    (sheet : SDL_Surface) (cols_r rows_r fw_r fh_r : Z) :
  0 ≤ rot ≤ 3 →
  0 < App.cols a → 0 < App.rows a →
  0 ≤ idx < App.cols a * App.rows a →
  sheet_at a rot = Done sheet →
  0 ≤ Surface.w sheet → 0 ≤ Surface.h sheet →
  grid_for_rot a rot = (cols_r, rows_r, fw_r, fh_r) →
  ∃ r, get_src_for_frame_rot a idx rot = Done r ∧
    0 ≤ Rect.x r ∧ 0 ≤ Rect.y r ∧
    Rect.x r + Rect.w r ≤ Surface.w sheet ∧
    Rect.y r + Rect.h r ≤ Surface.h sheet ∧
    0 ≤ Rect.w r ∧ 0 ≤ Rect.h r ∧
    (cols_r ≤ Surface.w sheet → 0 < Rect.w r) ∧
    (rows_r ≤ Surface.h sheet → 0 < Rect.h r).
Proof.
  intros Hrot Hcols Hrows Hidx Hsheet HW HH Hg.
  destruct (map_cell_for_rot a rot (idx / App.cols a) (idx mod App.cols a))
    as [rr cc] eqn:Hm.
  assert (Hbr : 0 ≤ idx / App.cols a < App.rows a).
  { split; [apply Z.div_pos; lia|].
    apply Z.div_lt_upper_bound; lia. }
  assert (Hbc : 0 ≤ idx mod App.cols a < App.cols a)
    by (apply Z.mod_pos_bound; lia).
  destruct (map_cell_for_rot_range a rot _ _ Hrot Hbr Hbc _ _ _ _ _ _ Hg Hm)
    as [Hrr Hcc].
  assert (Hcr : 0 < cols_r ∧ 0 < rows_r) by lia.
  rewrite (get_src_for_frame_rot_spans a idx rot sheet ltac:(lia) Hcols Hrows
             HW HH Hrot Hsheet _ _ _ _ _ _ Hg Hm).
  eexists. split; [reflexivity|]. cbn [Rect.x Rect.y Rect.w Rect.h].
  destruct (axis_span (Surface.w sheet) (Surface.w sheet / cols_r) cc cols_r)
    as [x w] eqn:Hx.
  destruct (axis_span (Surface.h sheet) (Surface.h sheet / rows_r) rr rows_r)
    as [y h] eqn:Hy.
  apply axis_span_spec in Hx; [|lia..].
  apply axis_span_spec in Hy; [|lia..].
  cbn [fst snd]. intuition lia.
Qed.

(** C5 on the sample state: frame 5 of the 16 x 8 sheet, turned once. *)
Lemma get_src_for_frame_rot_inside_witness :
  ∃ r, get_src_for_frame_rot Ref.app 5 1 = Done r ∧
    0 ≤ Rect.x r ∧ 0 ≤ Rect.y r ∧
    Rect.x r + Rect.w r ≤ Surface.w (Ref.sheet_of Ref.app 1) ∧
    Rect.y r + Rect.h r ≤ Surface.h (Ref.sheet_of Ref.app 1) ∧
    0 ≤ Rect.w r ∧ 0 ≤ Rect.h r ∧
    (4 ≤ Surface.w (Ref.sheet_of Ref.app 1) → 0 < Rect.w r) ∧
    (8 ≤ Surface.h (Ref.sheet_of Ref.app 1) → 0 < Rect.h r).
Proof.
  apply (get_src_for_frame_rot_inside Ref.app 5 1 (Ref.sheet_of Ref.app 1)
           4 8 2 2); by_computation.
Defined.

(** C5 as stated fails for a sheet narrower than its grid: the 4 x 4 sheet
    has 8 columns of width 4 / 8 = 0, and frame 0 gets a rectangle of
    width 0. *)
Lemma get_src_for_frame_rot_counterexample :
  (∃ sheet, sheet_at Ref.thin 0 = Done sheet ∧ Surface.w sheet = 4) ∧
  App.cols Ref.thin = 8 ∧
  get_src_for_frame_rot Ref.thin 0 0
    = Done {| Rect.x := 0; Rect.y := 0; Rect.w := 0; Rect.h := 1 |}.
Proof.
  split; [|split; vm_compute; reflexivity].
  eexists. split; vm_compute; reflexivity.
Qed.

(* ===================================================================== *)
(** ** Counted loops terminate *)
(* ===================================================================== *)















Section FastPathTerminates.
Context `{sdl : SDL_Platform}.



End FastPathTerminates.

(* ===================================================================== *)
(** ** The tick *)
(* ===================================================================== *)





Section Tick.
Context `{sdl : SDL_Platform}.



End Tick.

(** A tick of the sample state, 100 ms after its last one: the sprite moves from (30, 22) to
    (31.8, 23.4) and the 4 x 4 rectangle at (31, 23) is recorded. *)
Example iterate_sample_run :
  ∃ a', @SDL_AppIterate Ref.platform 5 1100 Ref.app
          = Done (SDL_APP_CONTINUE, a') ∧
    App.has_prev a' = true ∧
    App.prev_dst a'
      = {| Rect.x := 31; Rect.y := 23; Rect.w := 4; Rect.h := 4 |} ∧
    App.frame a' = 2.
Proof.
  by_running.
Qed.

(** A tick whose blit reports failure: at scale 1.0 the reference platform
    draws nothing and returns false, the window is as it was, and the tick
    still records the rectangle -- with the 2 x 2 of the source rectangle
    for its size -- and sets [has_prev]. *)
Example iterate_failed_blit_run :
  @SDL_BlitSurface Ref.platform Ref.sheet
     {| Rect.x := 4; Rect.y := 0; Rect.w := 2; Rect.h := 2 |}
     (App.win Ref.unscaled)
     {| Rect.x := 31; Rect.y := 23; Rect.w := 2; Rect.h := 2 |}
    = (false, App.win Ref.unscaled) ∧
  ∃ a', @SDL_AppIterate Ref.platform 5 1100 Ref.unscaled
          = Done (SDL_APP_CONTINUE, a') ∧
    App.win a' = App.win Ref.unscaled ∧
    App.has_prev a' = true ∧
    App.prev_dst a'
      = {| Rect.x := 31; Rect.y := 23; Rect.w := 2; Rect.h := 2 |}.
Proof.
  split; [reflexivity|]. by_running.
Qed.

(* ===================================================================== *)
(** ** Pixel memory *)
(* ===================================================================== *)

Lemma byte_of_to_Z (b : byte) : byte_of_Z (byte_to_Z b) = b.
Proof. destruct b; reflexivity. Qed.

Lemma byte_to_Z_range (b : byte) : 0 ≤ byte_to_Z b < 256.
Proof. destruct b; by_computation. Qed.

Lemma byte_of_Z_low (b0 b1 : byte) :
  byte_of_Z (byte_to_Z b0 + 256 * byte_to_Z b1) = b0.
Proof.
  transitivity (byte_of_Z (byte_to_Z b0)); [|apply byte_of_to_Z].
  unfold byte_of_Z.
  replace (byte_to_Z b0 + 256 * byte_to_Z b1)
    with (byte_to_Z b0 + byte_to_Z b1 * 256) by lia.
  rewrite Z.mod_add by lia. reflexivity.
Qed.

Lemma byte_of_Z_high (b0 b1 : byte) :
  byte_of_Z ((byte_to_Z b0 + 256 * byte_to_Z b1) / 256) = b1.
Proof.
  pose proof (byte_to_Z_range b0).
  replace (byte_to_Z b0 + 256 * byte_to_Z b1)
    with (byte_to_Z b0 + byte_to_Z b1 * 256) by lia.
  rewrite Z.div_add by lia.
  rewrite Z.div_small by lia. apply byte_of_to_Z.
Qed.

Lemma byte_at_in_range (m : list byte) (o : Z) :
  0 ≤ o < Z.of_nat (length m) → byte_at m o = Some (get m o).
Proof.
  intros Ho. unfold get, byte_at. destruct (Z.ltb_spec o 0); [lia|].
  destruct (m !! Z.to_nat o) eqn:E; [reflexivity|].
  apply lookup_ge_None in E. lia.
Qed.

Lemma load8_in_range (m : list byte) (o : Z) :
  0 ≤ o < Z.of_nat (length m) → load8 m o = Done (get m o).
Proof. intros Ho. unfold load8. rewrite byte_at_in_range by assumption. reflexivity. Qed.

Lemma load16_in_range (m : list byte) (o : Z) :
  0 ≤ o → o + 1 < Z.of_nat (length m) →
  load16 m o = Done (byte_to_Z (get m o) + 256 * byte_to_Z (get m (o + 1))).
Proof.
  intros H0 H1. unfold load16. rewrite !load8_in_range by lia. reflexivity.
Qed.

Lemma get_insert_eq (m : list byte) (o : Z) (b : byte) :
  0 ≤ o < Z.of_nat (length m) → get (<[Z.to_nat o := b]> m) o = b.
Proof.
  intros Ho. unfold get, byte_at. destruct (Z.ltb_spec o 0); [lia|].
  rewrite list_lookup_insert_eq by lia. reflexivity.
Qed.

Lemma get_insert_ne (m : list byte) (o o' : Z) (b : byte) :
  0 ≤ o → o ≠ o' → get (<[Z.to_nat o := b]> m) o' = get m o'.
Proof.
  intros Ho Hne. unfold get, byte_at. destruct (Z.ltb_spec o' 0); [reflexivity|].
  rewrite list_lookup_insert_ne by lia. reflexivity.
Qed.

(** ** Composing writes *)

Lemma writes_refl (m : list byte) (P : Z → byte → Prop) :
  (∀ o b, ¬ P o b) → writes m m P.
Proof.
  intros HP. split; [reflexivity|]. split; [|reflexivity].
  intros o b H. destruct (HP o b H).
Qed.

Lemma writes_iff (m m' : list byte) (P Q : Z → byte → Prop) :
  writes m m' P → (∀ o b, Q o b ↔ P o b) → writes m m' Q.
Proof.
  intros (Hl & Hw & Hk) HPQ. split; [exact Hl|]. split.
  - intros o b H. apply Hw, HPQ, H.
  - intros o H. apply Hk. intros b Hb. apply (H b), HPQ, Hb.
Qed.

Lemma writes_seq (m m1 m2 : list byte) (P1 P2 : Z → byte → Prop) :
  writes m m1 P1 → writes m1 m2 P2 →
  (∀ o b b', P1 o b → P2 o b' → False) →
  writes m m2 (λ o b, P1 o b ∨ P2 o b).
Proof.
  intros (Hl1 & Hw1 & Hk1) (Hl2 & Hw2 & Hk2) Hdisj.
  split; [congruence|]. split.
  - intros o b [H1|H2].
    + rewrite Hk2; [apply Hw1, H1|]. intros b' H2. exact (Hdisj o b b' H1 H2).
    + apply Hw2, H2.
  - intros o H. rewrite Hk2, Hk1; [reflexivity| |]; intros b Hb; apply (H b); auto.
Qed.

Lemma store8_writes (m : list byte) (o : Z) (b : byte) :
  0 ≤ o < Z.of_nat (length m) →
  ∃ m', store8 m o b = Done m' ∧ writes m m' (λ o' b', o' = o ∧ b' = b).
Proof.
  intros Ho. unfold store8.
  destruct (Z.leb_spec 0 o); [|lia].
  destruct (Z.ltb_spec o (Z.of_nat (length m))); [|lia].
  eexists. split; [reflexivity|]. split; [apply length_insert|]. split.
  - intros o' b' [-> ->]. apply get_insert_eq. lia.
  - intros o' Hno. apply get_insert_ne; [lia|].
    intros ->. apply (Hno b). auto.
Qed.

Lemma store16_writes (m : list byte) (o v : Z) :
  0 ≤ o → o + 1 < Z.of_nat (length m) →
  ∃ m', store16 m o v = Done m' ∧
    writes m m' (λ o' b', (o' = o ∧ b' = byte_of_Z v) ∨
                          (o' = o + 1 ∧ b' = byte_of_Z (v / 256))).
Proof.
  intros H0 H1. unfold store16.
  destruct (store8_writes m o (byte_of_Z v)) as (m1 & -> & Hw1); [lia|].
  cbn [mbind outcome_bind].
  destruct (store8_writes m1 (o + 1) (byte_of_Z (v / 256))) as (m2 & -> & Hw2).
  { destruct Hw1 as (-> & _). lia. }
  exists m2. split; [reflexivity|].
  eapply writes_seq; [exact Hw1 | exact Hw2 |].
  cbn. intros o' b b' [-> _] [Heq _]. lia.
Qed.

(** ** The loop rule for writes

    A loop whose iterations write disjoint sets of offsets writes their
    union.  [mem] is the pixel array of the loop state, [Inv] what the
    state carries besides. *)
Lemma for_loop_writes {S : Type} (mem : S → list byte)
    (Inv : Z → S → Prop) (P : Z → Z → byte → Prop)
    (body : Z → S → outcome S) (hi step : Z) (L : nat) :
  1 ≤ step →
  (∀ i s, i < hi → Inv i s → length (mem s) = L →
     ∃ s', body i s = Done s' ∧ Inv (i + step) s' ∧
           writes (mem s) (mem s') (P i)) →
  (∀ i j o b b', i < j → P i o b → P j o b' → False) →
  ∀ (fuel : nat) (i : Z) (s : S),
    hi - i ≤ Z.of_nat fuel → Inv i s → length (mem s) = L →
    ∃ sf, for_loop fuel i hi step body s = Done sf ∧
      writes (mem s) (mem sf)
        (λ o b, ∃ t, 0 ≤ t ∧ i + t * step < hi ∧ P (i + t * step) o b).
Proof.
  intros Hstep Hbody Hdisj.
  induction fuel as [|f IH]; intros i s Hfuel Hinv Hlen; cbn [for_loop].
  - destruct (Z.ltb_spec i hi); [lia|].
    exists s. split; [reflexivity|]. apply writes_refl.
    intros o b (t & Ht & Hlt & _). nia.
  - destruct (Z.ltb_spec i hi) as [Hlt|Hge].
    + destruct (Hbody i s Hlt Hinv Hlen) as (s' & -> & Hinv' & Hw).
      cbn [mbind outcome_bind].
      assert (Hlen' : length (mem s') = L) by (destruct Hw as (-> & _); exact Hlen).
      destruct (IH (i + step) s' ltac:(lia) Hinv' Hlen') as (sf & -> & Hwf).
      exists sf. split; [reflexivity|].
      eapply writes_iff.
      * eapply writes_seq; [exact Hw | exact Hwf |].
        cbn. intros o b b' H1 (t & Ht & Hlt' & H2).
        eapply (Hdisj i (i + step + t * step)); [nia | exact H1 | exact H2].
      * cbn. intros o b. split.
        -- intros (t & Ht & Hlt' & Hp).
           destruct (Z.eq_dec t 0) as [->|Hne].
           ++ left. replace (i + 0 * step) with i in Hp by lia. exact Hp.
           ++ right. exists (t - 1). split; [lia|].
              replace (i + step + (t - 1) * step) with (i + t * step) by lia.
              auto.
        -- intros [Hp | (t & Ht & Hlt' & Hp)].
           ++ exists 0. replace (i + 0 * step) with i by lia. auto with zarith.
           ++ exists (t + 1).
              replace (i + (t + 1) * step) with (i + step + t * step) by lia.
              split; [lia|]. auto.
    + exists s. split; [reflexivity|]. apply writes_refl.
      intros o b (t & Ht & Hlt & _). nia.
Qed.


(** The rule for [for (i = lo; i < hi; ++i)]. *)
Lemma for_range_writes {S : Type} (mem : S → list byte)
    (Inv : Z → S → Prop) (P : Z → Z → byte → Prop)
    (body : Z → S → outcome S) (lo hi : Z) (s0 : S) :
  (∀ i s, lo ≤ i < hi → Inv i s → length (mem s) = length (mem s0) →
     ∃ s', body i s = Done s' ∧ Inv (i + 1) s' ∧
           writes (mem s) (mem s') (P i)) →
  (∀ i j o b b', lo ≤ i → i < j → j < hi → P i o b → P j o b' → False) →
  Inv lo s0 →
  ∃ sf, for_range lo hi 1 body s0 = Done sf ∧
    writes (mem s0) (mem sf) (λ o b, ∃ j, lo ≤ j < hi ∧ P j o b).
Proof.
  intros Hbody Hdisj Hinv. unfold for_range.
  destruct (for_loop_writes mem (λ i s, lo ≤ i ∧ Inv i s)
              (λ i o b, lo ≤ i < hi ∧ P i o b) body hi 1
              (length (mem s0)) ltac:(lia)) with
    (fuel := Z.to_nat (hi - lo)) (i := lo) (s := s0) as (sf & Hrun & Hw).
  - intros i s Hi [Hlo Hi'] Hlen.
    destruct (Hbody i s ltac:(lia) Hi' Hlen) as (s' & Hb & Hinv' & Hw).
    exists s'. split; [exact Hb|]. split; [split; [lia|exact Hinv']|].
    eapply writes_iff; [exact Hw|]. intros o b. split; [tauto|]. intros ?. split; [lia|assumption].
  - intros i j o b b' Hij [Hi Hp] [Hj Hq]. eapply (Hdisj i j); eauto; lia.
  - lia.
  - split; [lia|exact Hinv].
  - reflexivity.
  - exists sf. split; [exact Hrun|].
    eapply writes_iff; [exact Hw|]. intros o b. split.
    + intros (j & Hj & Hp). exists (j - lo).
      replace (lo + (j - lo) * 1) with j by lia. repeat split; try lia. exact Hp.
    + intros (t & Ht & Hlt & Hr & Hp). exists (lo + t * 1). split; [lia|exact Hp].
Qed.

Lemma memcpy_writes (dst : list byte) (d : Z) (src : list byte) (s n : Z) :
  0 ≤ s → s + n ≤ Z.of_nat (length src) →
  0 ≤ d → d + n ≤ Z.of_nat (length dst) →
  ∃ dst', memcpy dst d src s n = Done dst' ∧
    writes dst dst' (λ o b, ∃ i, 0 ≤ i < n ∧ o = d + i ∧ b = get src (s + i)).
Proof.
  intros Hs Hsn Hd Hdn. unfold memcpy.
  apply (for_range_writes (λ m, m) (λ _ _, True)
           (λ i o b, o = d + i ∧ b = get src (s + i))).
  - intros i m Hi _ Hlen. rewrite load8_in_range by lia.
    cbn [mbind outcome_bind].
    destruct (store8_writes m (d + i) (get src (s + i))) as (m' & -> & Hw);
      [lia|].
    exists m'. auto.
  - intros i j o b b' _ Hij _ [-> _] [Heq _]. lia.
  - exact I.
Qed.

(** Offsets [x * p + a] with [0 <= a < p] determine [x] and [a]. *)
Lemma offset_inj (p a a' x x' : Z) :
  0 ≤ a < p → 0 ≤ a' < p → x * p + a = x' * p + a' → x = x' ∧ a = a'.
Proof.
  intros Ha Ha' Heq. assert (x = x') by nia. subst x'. lia.
Qed.

(* ===================================================================== *)
(** ** Rotation *)
(* ===================================================================== *)

Section Rotation.
Context `{sdl : SDL_Platform}.

(** What the loops of [rotate90_cw] write: byte [i] of source pixel (x, y)
    goes to byte [i] of destination pixel (sh - 1 - y, x). *)
Lemma rotate90_cw_loops_writes (src dst : SDL_Surface) (bpp : Z) :
  surface_ok src bpp →
  surface_ok dst bpp →
  Surface.w dst = Surface.h src → Surface.h dst = Surface.w src →
  ∃ dp, rotate90_cw_loops src dst bpp = Done dp ∧
    writes (Surface.pixels dst) dp
      (λ o b, ∃ y, 0 ≤ y < Surface.h src ∧ ∃ x, 0 ≤ x < Surface.w src ∧
         ∃ i, 0 ≤ i < bpp ∧
           o = x * Surface.pitch dst + (Surface.h src - 1 - y) * bpp + i ∧
           b = get (Surface.pixels src) (y * Surface.pitch src + x * bpp + i)).
Proof.
  intros (Hsw & Hsh & Hbpp & Hsp & Hslen) (Hdw & Hdh & _ & Hdp & Hdlen) Hw Hh.
  rewrite Hw in *. rewrite Hh in *.
  set (sw := Surface.w src) in *. set (sh := Surface.h src) in *.
  set (spitch := Surface.pitch src) in *.
  set (dpitch := Surface.pitch dst) in *.
  unfold rotate90_cw_loops. fold sw sh spitch dpitch.
  assert (Hcell : ∀ x y i, 0 ≤ x < sw → 0 ≤ y < sh → 0 ≤ i < bpp →
            0 ≤ (sh - 1 - y) * bpp + i < dpitch) by (intros; nia).
  apply (for_range_writes (λ m, m) (λ _ _, True)
    (λ y o b, ∃ x, 0 ≤ x < sw ∧ ∃ i, 0 ≤ i < bpp ∧
       o = x * dpitch + (sh - 1 - y) * bpp + i ∧
       b = get (Surface.pixels src) (y * spitch + x * bpp + i))).
  - intros y m Hy _ Hlen.
    destruct (for_range_writes (λ m, m) (λ _ _, True)
      (λ x o b, ∃ i, 0 ≤ i < bpp ∧
         o = x * dpitch + (sh - 1 - y) * bpp + i ∧
         b = get (Surface.pixels src) (y * spitch + x * bpp + i))
      (λ x dp, memcpy dp (x * dpitch + (sh - 1 - y) * bpp)
                 (Surface.pixels src) (y * spitch + x * bpp) bpp)
      0 sw m) as (m' & Hrun & Hwr).
    + intros x m1 Hx _ Hlen1.
      destruct (memcpy_writes m1 (x * dpitch + (sh - 1 - y) * bpp)
                  (Surface.pixels src) (y * spitch + x * bpp) bpp)
        as (m2 & Hm & Hw2); try nia.
      exists m2. split; [exact Hm|]. split; [exact I|].
      eapply writes_iff; [exact Hw2|]. intros o b.
      split; intros (i & Hi & Ho & Hb); exists i; (split; [exact Hi|]);
        split; first [lia | rewrite Hb; f_equal; lia].
    + intros x x' o b b' Hx Hxx' Hx' (i & Hi & Ho & _) (i' & Hi' & Ho' & _).
      destruct (offset_inj dpitch ((sh - 1 - y) * bpp + i)
                  ((sh - 1 - y) * bpp + i') x x'); [nia | nia | lia | lia].
    + exact I.
    + exists m'. split; [exact Hrun|]. split; [exact I|]. exact Hwr.
  - intros y y' o b b' Hy Hyy' Hy'
      (x & Hx & i & Hi & Ho & _) (x' & Hx' & i' & Hi' & Ho' & _).
    destruct (offset_inj dpitch ((sh - 1 - y) * bpp + i)
                ((sh - 1 - y') * bpp + i') x x') as [_ Hin];
      [nia | nia | lia |].
    destruct (offset_inj bpp i i' (sh - 1 - y) (sh - 1 - y')); [lia..|]. lia.
  - exact I.
Qed.

Lemma lock_failed_false (s : SDL_Surface) : lock_failed s = false.
Proof. unfold lock_failed. destruct (SDL_LockSurface s); reflexivity. Qed.

Lemma pixel_at_ext (s s' : SDL_Surface) (bpp x y x' y' : Z) :
  (∀ i, 0 ≤ i < bpp →
     get (Surface.pixels s') (y' * Surface.pitch s' + x' * bpp + i)
     = get (Surface.pixels s) (y * Surface.pitch s + x * bpp + i)) →
  pixel_at s' bpp x' y' = pixel_at s bpp x y.
Proof.
  intros H. unfold pixel_at. apply map_ext_in. intros i Hi.
  apply H. apply list_elem_of_In, elem_of_seqZ in Hi. lia.
Qed.

(** One call of [rotate90_cw] whose allocation succeeds. *)
Lemma rotate90_cw_spec (src d0 : SDL_Surface) (bpp : Z) :
  bpp = surface_bpp src →
  surface_ok src bpp →
  SDL_CreateSurface (Surface.h src) (Surface.w src) (Surface.format src)
    = Some d0 →
  Surface.w d0 = Surface.h src → Surface.h d0 = Surface.w src →
  surface_ok d0 bpp →
  ∃ dst, rotate90_cw src = Done (Some dst) ∧
    Surface.w dst = Surface.h src ∧ Surface.h dst = Surface.w src ∧
    Surface.format dst = Surface.format d0 ∧ surface_ok dst bpp ∧
    ∀ x y, 0 ≤ x < Surface.w src → 0 ≤ y < Surface.h src →
      pixel_at dst bpp (Surface.h src - 1 - y) x = pixel_at src bpp x y.
Proof.
  intros Hbpp Hsrc Halloc Hw Hh Hd0.
  unfold rotate90_cw. rewrite Halloc, !lock_failed_false, <- Hbpp.
  destruct (rotate90_cw_loops_writes src d0 bpp Hsrc Hd0 Hw Hh)
    as (dp & -> & Hlen & Hwr & _).
  cbn [mbind outcome_bind]. eexists. split; [reflexivity|].
  cbn [Surface.w Surface.h Surface.format Surface.set_pixels].
  repeat (split; [assumption || reflexivity|]).
  split.
  { destruct Hd0 as (? & ? & ? & ? & ?). unfold surface_ok.
    cbn [Surface.w Surface.h Surface.pitch Surface.pixels Surface.set_pixels].
    rewrite Hlen. auto. }
  intros x y Hx Hy. apply pixel_at_ext. intros i Hi.
  cbn [Surface.pixels Surface.pitch Surface.set_pixels].
  apply Hwr. exists y. split; [exact Hy|]. exists x. split; [exact Hx|].
  exists i. split; [exact Hi|]. split; [lia|reflexivity].
Qed.

(** C7.  [rotate90_cw] of a buffer of width sw and height sh, when the
    allocation of the new buffer succeeds, returns a new buffer of width sh
    and height sw in which the pixel at column new_width - 1 - y and row x
    is the source pixel (x, y), for every source coordinate. *)
Theorem rotate90_cw_quarter_turn (src d0 : SDL_Surface) (bpp : Z) :
  bpp = surface_bpp src →
  surface_ok src bpp →
  SDL_CreateSurface (Surface.h src) (Surface.w src) (Surface.format src)
    = Some d0 →
  Surface.w d0 = Surface.h src → Surface.h d0 = Surface.w src →
  surface_ok d0 bpp →
  ∃ dst, rotate90_cw src = Done (Some dst) ∧
    Surface.w dst = Surface.h src ∧ Surface.h dst = Surface.w src ∧
    ∀ x y, 0 ≤ x < Surface.w src → 0 ≤ y < Surface.h src →
      pixel_at dst bpp (Surface.w dst - 1 - y) x = pixel_at src bpp x y.
Proof.
  intros Hbpp Hsrc Halloc Hw Hh Hd0.
  destruct (rotate90_cw_spec src d0 bpp Hbpp Hsrc Halloc Hw Hh Hd0)
    as (dst & Hrun & Hdw & Hdh & _ & _ & Hpix).
  exists dst. rewrite Hdw. auto.
Qed.

(** C6.  Four calls of [rotate90_cw] in sequence, when the allocations
    succeed, end with a buffer of the width and height of the original
    whose pixel at every coordinate is the original's; each call swaps
    width and height. *)
Theorem rotate90_cw_four_times (src : SDL_Surface) :
  surface_ok src (surface_bpp src) →
  create_ok src →
  SDL_CreateSurface (Surface.h src) (Surface.w src) (Surface.format src)
    ≠ None →
  SDL_CreateSurface (Surface.w src) (Surface.h src) (Surface.format src)
    ≠ None →
  ∃ s1 s2 s3 s4,
    rotate90_cw src = Done (Some s1) ∧ rotate90_cw s1 = Done (Some s2) ∧
    rotate90_cw s2 = Done (Some s3) ∧ rotate90_cw s3 = Done (Some s4) ∧
    (Surface.w s1 = Surface.h src ∧ Surface.h s1 = Surface.w src) ∧
    (Surface.w s2 = Surface.w src ∧ Surface.h s2 = Surface.h src) ∧
    (Surface.w s3 = Surface.h src ∧ Surface.h s3 = Surface.w src) ∧
    (Surface.w s4 = Surface.w src ∧ Surface.h s4 = Surface.h src) ∧
    ∀ x y, 0 ≤ x < Surface.w src → 0 ≤ y < Surface.h src →
      pixel_at s4 (surface_bpp src) x y = pixel_at src (surface_bpp src) x y.
Proof.
  intros Hsrc Hcreate Ha1 Ha2.
  set (bpp := surface_bpp src) in *.
  assert (Hstep : ∀ s, surface_ok s bpp →
            Surface.format s = Surface.format src →
            SDL_CreateSurface (Surface.h s) (Surface.w s) (Surface.format src)
              ≠ None →
            ∃ s', rotate90_cw s = Done (Some s') ∧
              Surface.w s' = Surface.h s ∧ Surface.h s' = Surface.w s ∧
              Surface.format s' = Surface.format src ∧ surface_ok s' bpp ∧
              ∀ x y, 0 ≤ x < Surface.w s → 0 ≤ y < Surface.h s →
                pixel_at s' bpp (Surface.h s - 1 - y) x = pixel_at s bpp x y).
  { intros s Hok Hfmt Hsome.
    destruct (SDL_CreateSurface (Surface.h s) (Surface.w s) (Surface.format src))
      as [d0|] eqn:Hd0; [|congruence].
    destruct (Hcreate _ _ _ Hd0) as (Hw0 & Hh0 & Hf0 & Hok0).
    assert (Hb : bpp = surface_bpp s).
    { subst bpp. unfold surface_bpp. rewrite Hfmt. reflexivity. }
    rewrite <- Hfmt in Hd0.
    destruct (rotate90_cw_spec s d0 bpp Hb Hok Hd0 Hw0 Hh0 Hok0)
      as (s' & Hrun & Hw' & Hh' & Hf' & Hok' & Hpix).
    exists s'. repeat (split; [first [assumption | congruence]|]). exact Hpix. }
  destruct (Hstep src Hsrc eq_refl Ha1)
    as (s1 & Hr1 & Hw1 & Hh1 & Hf1 & Hok1 & Hp1).
  destruct (Hstep s1 Hok1 Hf1 ltac:(rewrite Hw1, Hh1; exact Ha2))
    as (s2 & Hr2 & Hw2 & Hh2 & Hf2 & Hok2 & Hp2).
  destruct (Hstep s2 Hok2 Hf2 ltac:(rewrite Hw2, Hh2, Hw1, Hh1; exact Ha1))
    as (s3 & Hr3 & Hw3 & Hh3 & Hf3 & Hok3 & Hp3).
  destruct (Hstep s3 Hok3 Hf3
              ltac:(rewrite Hw3, Hh3, Hw2, Hh2, Hw1, Hh1; exact Ha2))
    as (s4 & Hr4 & Hw4 & Hh4 & Hf4 & Hok4 & Hp4).
  exists s1, s2, s3, s4.
  do 4 (split; [assumption|]).
  do 4 (split; [split; congruence|]).
  intros x y Hx Hy.
  set (w := Surface.w src) in *. set (h := Surface.h src) in *.
  rewrite <- (Hp1 x y) by assumption.
  rewrite <- (Hp2 (h - 1 - y) x) by lia.
  rewrite <- (Hp3 (Surface.h s1 - 1 - x) (h - 1 - y)) by lia.
  rewrite <- (Hp4 (Surface.h s2 - 1 - (h - 1 - y)) (Surface.h s1 - 1 - x)) by lia.
  f_equal; lia.
Qed.

End Rotation.

(** C7 on the sample sheet: 16 x 8 pixels turn into 8 x 16. *)
Lemma rotate90_cw_quarter_turn_witness :
  ∃ dst, @rotate90_cw Ref.platform Ref.sheet = Done (Some dst) ∧
    Surface.w dst = Surface.h Ref.sheet ∧
    Surface.h dst = Surface.w Ref.sheet ∧
    ∀ x y, 0 ≤ x < Surface.w Ref.sheet → 0 ≤ y < Surface.h Ref.sheet →
      pixel_at dst 2 (Surface.w dst - 1 - y) x = pixel_at Ref.sheet 2 x y.
Proof.
  apply (@rotate90_cw_quarter_turn Ref.platform Ref.sheet (Ref.blank 8 16) 2);
    by_computation.
Defined.

(** The reference platform keeps the contract of [SDL_CreateSurface]. *)
Lemma Ref_create_ok : @create_ok Ref.platform Ref.sheet.
Proof.
  intros w h d.
  change (Surface.format Ref.sheet) with SDL_PIXELFORMAT_RGB565.
  change (@surface_bpp Ref.platform Ref.sheet) with 2.
  change (@SDL_CreateSurface Ref.platform) with Ref.create.
  unfold Ref.create.
  change (Ref.details SDL_PIXELFORMAT_RGB565)
    with (Some {| pf_format := SDL_PIXELFORMAT_RGB565; bytes_per_pixel := 2 |}).
  cbn [bytes_per_pixel].
  destruct (Z.ltb_spec w 0); [discriminate|].
  destruct (Z.ltb_spec h 0); [discriminate|].
  cbn [orb]. intros [= <-].
  cbn [Surface.w Surface.h Surface.format Surface.pitch Surface.pixels].
  repeat (split; [reflexivity|]).
  unfold surface_ok.
  cbn [Surface.w Surface.h Surface.format Surface.pitch Surface.pixels].
  assert (Hp : w * 2 ≤ Ref.row_pitch w 2).
  { unfold Ref.row_pitch.
    pose proof (Z.div_mod (w * 2 + 3) 4 ltac:(lia)).
    pose proof (Z.mod_pos_bound (w * 2 + 3) 4 ltac:(lia)). lia. }
  rewrite length_replicate.
  repeat (split; [lia|]). rewrite Z2Nat.id by nia. lia.
Qed.

(** C6 on the sample sheet. *)
Lemma rotate90_cw_four_times_witness :
  ∃ s1 s2 s3 s4,
    @rotate90_cw Ref.platform Ref.sheet = Done (Some s1) ∧
    @rotate90_cw Ref.platform s1 = Done (Some s2) ∧
    @rotate90_cw Ref.platform s2 = Done (Some s3) ∧
    @rotate90_cw Ref.platform s3 = Done (Some s4) ∧
    (Surface.w s1 = Surface.h Ref.sheet ∧ Surface.h s1 = Surface.w Ref.sheet) ∧
    (Surface.w s2 = Surface.w Ref.sheet ∧ Surface.h s2 = Surface.h Ref.sheet) ∧
    (Surface.w s3 = Surface.h Ref.sheet ∧ Surface.h s3 = Surface.w Ref.sheet) ∧
    (Surface.w s4 = Surface.w Ref.sheet ∧ Surface.h s4 = Surface.h Ref.sheet) ∧
    ∀ x y, 0 ≤ x < Surface.w Ref.sheet → 0 ≤ y < Surface.h Ref.sheet →
      pixel_at s4 (@surface_bpp Ref.platform Ref.sheet) x y
      = pixel_at Ref.sheet (@surface_bpp Ref.platform Ref.sheet) x y.
Proof.
  apply (@rotate90_cw_four_times Ref.platform Ref.sheet).
  - by_computation.
  - exact Ref_create_ok.
  - by_computation.
  - by_computation.
Defined.

(* ===================================================================== *)
(** ** The fast path: upscale *)
(* ===================================================================== *)

Section BlitUpscale.
Variables (sp : list byte) (spitch : Z) (sr : SDL_Rect).
Variables (dpitch : Z) (dr : SDL_Rect) (key565 k : Z) (L : nat).

Hypothesis Hk : 0 < k.
Hypothesis Hsx : 0 ≤ Rect.x sr.
Hypothesis Hsy : 0 ≤ Rect.y sr.
Hypothesis Hsw : 0 ≤ Rect.w sr.
Hypothesis Hsh : 0 ≤ Rect.h sr.
Hypothesis Hsrow : 2 * (Rect.x sr + Rect.w sr) ≤ spitch.
Hypothesis Hslen : (Rect.y sr + Rect.h sr) * spitch ≤ Z.of_nat (length sp).
Hypothesis Hdx : 0 ≤ Rect.x dr.
Hypothesis Hdy : 0 ≤ Rect.y dr.
Hypothesis Hdrow : 2 * (Rect.x dr + Rect.w sr * k) ≤ dpitch.
Hypothesis Hdlen : (Rect.y dr + Rect.h sr * k) * dpitch ≤ Z.of_nat L.

Lemma sample_off_in_range (sx sy : Z) :
  0 ≤ sx < Rect.w sr → 0 ≤ sy < Rect.h sr →
  0 ≤ sample_off spitch sr sx sy ∧
  sample_off spitch sr sx sy + 1 < Z.of_nat (length sp).
Proof. unfold sample_off. intros Hx Hy. nia. Qed.

(** A written offset determines the replica and the sample it comes from. *)
Lemma up_px_inj (sy vy sx i sy' vy' sx' i' o : Z) (b b' : byte) :
  0 ≤ vy < k → 0 ≤ vy' < k → 0 ≤ i < k → 0 ≤ i' < k →
  0 ≤ sx < Rect.w sr → 0 ≤ sx' < Rect.w sr →
  up_px sp spitch sr dpitch dr k sy vy sx i o b →
  up_px sp spitch sr dpitch dr k sy' vy' sx' i' o b' →
  sy = sy' ∧ vy = vy' ∧ sx = sx' ∧ i = i'.
Proof.
  intros Hvy Hvy' Hi Hi' Hx Hx' (β & Hβ & Ho & _) (β' & Hβ' & Ho' & _).
  assert (Hc : 0 ≤ sx * k + i < Rect.w sr * k) by nia.
  assert (Hc' : 0 ≤ sx' * k + i' < Rect.w sr * k) by nia.
  destruct (offset_inj dpitch
              (2 * Rect.x dr + 2 * (sx * k + i) + β)
              (2 * Rect.x dr + 2 * (sx' * k + i') + β')
              (Rect.y dr + sy * k + vy) (Rect.y dr + sy' * k + vy'))
    as [Hrow Hcol]; [lia | lia | lia |].
  destruct (offset_inj k vy vy' sy sy') as [-> ->]; [lia | lia | lia |].
  destruct (offset_inj 2 β β' (sx * k + i) (sx' * k + i')) as [Hci _];
    [lia | lia | lia |].
  destruct (offset_inj k i i' sx sx') as [-> ->]; [lia | lia | lia |].
  auto.
Qed.

Lemma up_off_in_range (sy vy sx i : Z) :
  0 ≤ sy < Rect.h sr → 0 ≤ vy < k → 0 ≤ sx < Rect.w sr → 0 ≤ i < k →
  0 ≤ (Rect.y dr + sy * k + vy) * dpitch + 2 * Rect.x dr + 2 * (sx * k + i) ∧
  (Rect.y dr + sy * k + vy) * dpitch + 2 * Rect.x dr + 2 * (sx * k + i) + 1
    < Z.of_nat L.
Proof.
  intros Hy Hvy Hx Hi.
  assert (Hrow : 0 ≤ sy * k + vy < Rect.h sr * k) by nia.
  assert (Hcol : 0 ≤ sx * k + i < Rect.w sr * k) by nia.
  set (row := Rect.y dr + sy * k + vy).
  assert (Hr : 0 ≤ row ∧ row + 1 ≤ Rect.y dr + Rect.h sr * k) by lia.
  assert (Hp : 0 ≤ dpitch) by lia.
  assert ((row + 1) * dpitch ≤ (Rect.y dr + Rect.h sr * k) * dpitch)
    by (apply Z.mul_le_mono_nonneg_r; lia).
  assert (0 ≤ row * dpitch) by (apply Z.mul_nonneg_nonneg; lia).
  lia.
Qed.

(** The innermost loop: one sample replicated along a row. *)
Lemma replicate_row_writes (sy vy sx : Z) (m : list byte) :
  0 ≤ sy < Rect.h sr → 0 ≤ vy < k → 0 ≤ sx < Rect.w sr →
  length m = L →
  ∃ m', for_range 0 k 1
          (λ i dp, store16 dp
             ((Rect.y dr + sy * k + vy) * dpitch + 2 * Rect.x dr
              + 2 * (sx * k + i))
             (sample16 sp spitch sr sx sy)) m = Done m' ∧
    writes m m' (λ o b, ∃ i, 0 ≤ i < k ∧
                   up_px sp spitch sr dpitch dr k sy vy sx i o b).
Proof.
  intros Hy Hvy Hx Hlen.
  apply (for_range_writes (λ m, m) (λ _ _, True)
           (up_px sp spitch sr dpitch dr k sy vy sx)).
  - intros i m1 Hi _ Hlen1.
    destruct (store16_writes m1
                ((Rect.y dr + sy * k + vy) * dpitch + 2 * Rect.x dr
                 + 2 * (sx * k + i))
                (sample16 sp spitch sr sx sy)) as (m2 & Hst & Hw);
      [apply up_off_in_range; lia
      | rewrite Hlen1, Hlen; apply up_off_in_range; lia |].
    exists m2. split; [exact Hst|]. split; [exact I|].
    eapply writes_iff; [exact Hw|]. intros o b. unfold up_px, sample16.
    split.
    + intros (β & Hβ & -> & ->).
      assert (Hβ' : β = 0 ∨ β = 1) by lia.
      destruct Hβ' as [-> | ->]; [left | right].
      * rewrite byte_of_Z_low, !Z.add_0_r. auto.
      * rewrite byte_of_Z_high. auto.
    + intros [[-> ->] | [-> ->]]; [exists 0 | exists 1].
      * rewrite byte_of_Z_low, !Z.add_0_r. auto with zarith.
      * rewrite byte_of_Z_high. auto with zarith.
  - intros i j o b b' Hi Hij Hj H1 H2.
    destruct (up_px_inj sy vy sx i sy vy sx j o b b') as (_ & _ & _ & Heq);
      try assumption; lia.
  - exact I.
Qed.

(** The loop over the samples of a source row, for one destination row. *)
Lemma upscale_row_writes (sy vy : Z) (m : list byte) :
  0 ≤ sy < Rect.h sr → 0 ≤ vy < k → length m = L →
  ∃ sf, for_range 0 (Rect.w sr) 1 (λ sx '(dp, dx),
          pix ← load16 sp ((Rect.y sr + sy) * spitch + 2 * Rect.x sr + 2 * sx);
          if pix =? key565 then Done (dp, dx + k)
          else
            dp ← for_range 0 k 1 (λ i dp,
                   store16 dp ((Rect.y dr + sy * k + vy) * dpitch
                               + 2 * Rect.x dr + 2 * (dx + i)) pix) dp;
            Done (dp, dx + k))
        (m, 0) = Done sf ∧
    writes m (fst sf) (up_vy sp spitch sr dpitch dr key565 k sy vy).
Proof.
  intros Hy Hvy Hlen.
  apply (for_range_writes fst (λ sx s, snd s = sx * k)
           (up_sx sp spitch sr dpitch dr key565 k sy vy)).
  - intros sx [m1 dx] Hx Hinv Hlen1. cbn [fst snd] in *. subst dx.
    destruct (sample_off_in_range sx sy Hx Hy) as [Hlo Hhi].
    unfold sample_off in Hlo, Hhi. rewrite load16_in_range by assumption.
    cbn [mbind outcome_bind].
    change (byte_to_Z (get sp ((Rect.y sr + sy) * spitch + 2 * Rect.x sr + 2 * sx))
            + 256 * byte_to_Z (get sp ((Rect.y sr + sy) * spitch
                                       + 2 * Rect.x sr + 2 * sx + 1)))
      with (sample16 sp spitch sr sx sy).
    destruct (Z.eqb_spec (sample16 sp spitch sr sx sy) key565) as [Hkey|Hkey].
    + exists (m1, sx * k + k). split; [reflexivity|]. cbn [fst snd].
      split; [lia|]. apply writes_refl. intros o b [Hne _]. contradiction.
    + destruct (replicate_row_writes sy vy sx m1 Hy Hvy Hx)
        as (m2 & Hrun & Hw); [congruence|].
      rewrite Hrun. cbn [mbind outcome_bind].
      exists (m2, sx * k + k). split; [reflexivity|]. cbn [fst snd].
      split; [lia|].
      eapply writes_iff; [exact Hw|]. intros o b. unfold up_sx. tauto.
  - intros sx sx' o b b' Hx Hxx' Hx'
      (_ & i & Hi & H1) (_ & i' & Hi' & H2).
    destruct (up_px_inj sy vy sx i sy vy sx' i' o b b') as (_ & _ & Heq & _);
      try assumption; lia.
  - reflexivity.
Qed.

(** The four loops. *)
Lemma blit_upscale_writes (dp : list byte) :
  length dp = L →
  ∃ dp', blit_upscale sp spitch sr dp dpitch dr key565 k = Done dp' ∧
    writes dp dp' (upscale_writes sp spitch sr dpitch dr key565 k).
Proof.
  intros Hlen. unfold blit_upscale.
  apply (for_range_writes (λ m, m) (λ _ _, True)
           (up_sy sp spitch sr dpitch dr key565 k)).
  - intros sy m Hy _ Hlen1. cbv zeta.
    destruct (for_range_writes (λ m, m) (λ _ _, True)
                (up_vy sp spitch sr dpitch dr key565 k sy)
                (λ vy dp0,
                   '(dp1, _) ← for_range 0 (Rect.w sr) 1 (λ sx '(dp, dx),
                       pix ← load16 sp ((Rect.y sr + sy) * spitch
                                        + 2 * Rect.x sr + 2 * sx);
                       if pix =? key565 then Done (dp, dx + k)
                       else
                         dp ← for_range 0 k 1 (λ i dp,
                                store16 dp ((Rect.y dr + sy * k + vy) * dpitch
                                            + 2 * Rect.x dr + 2 * (dx + i))
                                  pix) dp;
                         Done (dp, dx + k))
                     (dp0, 0);
                   Done dp1)
                0 k m) as (m' & Hrun & Hw).
    + intros vy m1 Hvy _ Hlen2.
      destruct (upscale_row_writes sy vy m1 Hy Hvy) as ([m2 dx] & Hrun & Hw);
        [congruence|].
      rewrite Hrun. cbn [mbind outcome_bind fst] in *.
      exists m2. auto.
    + intros vy vy' o b b' Hvy Hlt Hvy'
        (sx & Hx & _ & i & Hi & H1) (sx' & Hx' & _ & i' & Hi' & H2).
      destruct (up_px_inj sy vy sx i sy vy' sx' i' o b b') as (_ & Heq & _);
        try assumption; lia.
    + exact I.
    + exists m'. split; [exact Hrun|]. split; [exact I|exact Hw].
  - intros sy sy' o b b' Hy Hlt Hy'
      (vy & Hvy & sx & Hx & _ & i & Hi & H1)
      (vy' & Hvy' & sx' & Hx' & _ & i' & Hi' & H2).
    destruct (up_px_inj sy vy sx i sy' vy' sx' i' o b b') as (Heq & _);
      try assumption; lia.
  - exact I.
Qed.

End BlitUpscale.

(* ===================================================================== *)
(** ** The fast path: downscale *)
(* ===================================================================== *)

(** The rule for [for (i = 0; i < hi; i += 2)], indexed by [t = i / 2]. *)
Lemma for_range_step2_writes {S : Type} (mem : S → list byte)
    (Inv : Z → S → Prop) (P : Z → Z → byte → Prop)
    (body : Z → S → outcome S) (hi : Z) (s0 : S) :
  (∀ t s, 0 ≤ t → 2 * t < hi → Inv t s →
     length (mem s) = length (mem s0) →
     ∃ s', body (2 * t) s = Done s' ∧ Inv (t + 1) s' ∧
           writes (mem s) (mem s') (P t)) →
  (∀ t t' o b b', 0 ≤ t → t < t' → 2 * t' < hi →
     P t o b → P t' o b' → False) →
  Inv 0 s0 →
  ∃ sf, for_range 0 hi 2 body s0 = Done sf ∧
    writes (mem s0) (mem sf) (λ o b, ∃ t, 0 ≤ t ∧ 2 * t < hi ∧ P t o b).
Proof.
  intros Hbody Hdisj Hinv. unfold for_range.
  destruct (for_loop_writes mem (λ i s, ∃ t, i = 2 * t ∧ 0 ≤ t ∧ Inv t s)
              (λ i o b, ∃ t, i = 2 * t ∧ 0 ≤ t ∧ 2 * t < hi ∧ P t o b)
              body hi 2 (length (mem s0)) ltac:(lia)) with
    (fuel := Z.to_nat (hi - 0)) (i := 0) (s := s0) as (sf & Hrun & Hw).
  - intros i s Hi (t & -> & Ht & Hi') Hlen.
    destruct (Hbody t s Ht Hi Hi' Hlen) as (s' & Hb & Hinv' & Hw).
    exists s'. split; [exact Hb|]. split.
    + exists (t + 1). split; [lia|]. split; [lia|exact Hinv'].
    + eapply writes_iff; [exact Hw|]. intros o b. split.
      * intros (t' & Heq & _ & _ & Hp). replace t with t' by lia. exact Hp.
      * intros Hp. exists t. auto.
  - intros i j o b b' Hij (t & -> & Ht & _ & Hp) (t' & -> & Ht' & Hlt & Hq).
    eapply (Hdisj t t'); eauto; lia.
  - lia.
  - exists 0. auto with zarith.
  - reflexivity.
  - exists sf. split; [exact Hrun|].
    eapply writes_iff; [exact Hw|]. intros o b. split.
    + intros (t & Ht & Hlt & Hp). exists t. split; [lia|]. split; [lia|].
      exists t. auto with zarith.
    + intros (t & Ht & Hlt & t' & Heq & Ht' & Hlt' & Hp).
      exists t'. auto.
Qed.

Section BlitHalf.
Variables (sp : list byte) (spitch : Z) (sr : SDL_Rect).
Variables (dpitch : Z) (dr : SDL_Rect) (key565 : Z) (L : nat).

Hypothesis Hsx : 0 ≤ Rect.x sr.
Hypothesis Hsy : 0 ≤ Rect.y sr.
Hypothesis Hsw : 0 ≤ Rect.w sr.
Hypothesis Hsh : 0 ≤ Rect.h sr.
Hypothesis Hsrow : 2 * (Rect.x sr + Rect.w sr) ≤ spitch.
Hypothesis Hslen : (Rect.y sr + Rect.h sr) * spitch ≤ Z.of_nat (length sp).
Hypothesis Hdx : 0 ≤ Rect.x dr.
Hypothesis Hdy : 0 ≤ Rect.y dr.
Hypothesis Hdrow : 2 * (Rect.x dr + (Rect.w sr + 1) / 2) ≤ dpitch.
Hypothesis Hdlen :
  (Rect.y dr + (Rect.h sr + 1) / 2) * dpitch ≤ Z.of_nat L.

Lemma half_index (t n : Z) : 0 ≤ t → 2 * t < n → t < (n + 1) / 2.
Proof.
  intros Ht Hlt.
  pose proof (Z.div_mod (n + 1) 2 ltac:(lia)).
  pose proof (Z.mod_pos_bound (n + 1) 2 ltac:(lia)). lia.
Qed.

Lemma half_off_in_range (ty tx : Z) :
  0 ≤ ty → 2 * ty < Rect.h sr → 0 ≤ tx → 2 * tx < Rect.w sr →
  0 ≤ (Rect.y dr + ty) * dpitch + 2 * Rect.x dr + 2 * tx ∧
  (Rect.y dr + ty) * dpitch + 2 * Rect.x dr + 2 * tx + 1 < Z.of_nat L.
Proof.
  intros Hy Hy' Hx Hx'.
  pose proof (half_index ty _ Hy Hy'). pose proof (half_index tx _ Hx Hx').
  set (row := Rect.y dr + ty).
  assert (Hr : 0 ≤ row ∧ row + 1 ≤ Rect.y dr + (Rect.h sr + 1) / 2) by lia.
  assert (Hp : 0 ≤ dpitch) by lia.
  assert ((row + 1) * dpitch ≤ (Rect.y dr + (Rect.h sr + 1) / 2) * dpitch)
    by (apply Z.mul_le_mono_nonneg_r; lia).
  assert (0 ≤ row * dpitch) by (apply Z.mul_nonneg_nonneg; lia).
  lia.
Qed.

Lemma half_px_inj (ty tx ty' tx' o : Z) (b b' : byte) :
  0 ≤ tx → 2 * tx < Rect.w sr → 0 ≤ tx' → 2 * tx' < Rect.w sr →
  half_px sp spitch sr dpitch dr key565 ty tx o b →
  half_px sp spitch sr dpitch dr key565 ty' tx' o b' →
  ty = ty' ∧ tx = tx'.
Proof.
  intros Hx Hx2 Hx' Hx2' (_ & β & Hβ & Ho & _) (_ & β' & Hβ' & Ho' & _).
  pose proof (half_index tx _ Hx Hx2). pose proof (half_index tx' _ Hx' Hx2').
  destruct (offset_inj dpitch (2 * Rect.x dr + 2 * tx + β)
              (2 * Rect.x dr + 2 * tx' + β')
              (Rect.y dr + ty) (Rect.y dr + ty'))
    as [Hrow Hcol]; [lia | lia | lia |].
  destruct (offset_inj 2 β β' tx tx'); [lia | lia | lia |]. lia.
Qed.

Lemma half_sample_in_range (tx ty : Z) :
  0 ≤ tx → 2 * tx < Rect.w sr → 0 ≤ ty → 2 * ty < Rect.h sr →
  0 ≤ sample_off spitch sr (2 * tx) (2 * ty) ∧
  sample_off spitch sr (2 * tx) (2 * ty) + 1 < Z.of_nat (length sp).
Proof. unfold sample_off. intros. nia. Qed.

(** The loop over every other sample of a source row. *)
Lemma half_row_writes (ty : Z) (m : list byte) :
  0 ≤ ty → 2 * ty < Rect.h sr → length m = L →
  ∃ sf, for_range 0 (Rect.w sr) 2 (λ sx '(dp, dx),
          pix ← load16 sp ((Rect.y sr + 2 * ty) * spitch
                           + 2 * Rect.x sr + 2 * sx);
          dp ← (if negb (pix =? key565)
                then store16 dp ((Rect.y dr + ty) * dpitch
                                 + 2 * Rect.x dr + 2 * dx) pix
                else Done dp);
          Done (dp, dx + 1))
        (m, 0) = Done sf ∧
    writes m (fst sf) (half_row sp spitch sr dpitch dr key565 ty).
Proof.
  intros Hy Hy' Hlen.
  apply (for_range_step2_writes fst (λ t s, snd s = t)
           (half_px sp spitch sr dpitch dr key565 ty)).
  - intros tx [m1 dx] Hx Hx' Hinv Hlen1. cbn [fst snd] in *. subst dx.
    destruct (half_sample_in_range tx ty Hx Hx' Hy Hy') as [Hlo Hhi].
    unfold sample_off in Hlo, Hhi. rewrite load16_in_range by assumption.
    cbn [mbind outcome_bind].
    change (byte_to_Z (get sp ((Rect.y sr + 2 * ty) * spitch
                               + 2 * Rect.x sr + 2 * (2 * tx)))
            + 256 * byte_to_Z (get sp ((Rect.y sr + 2 * ty) * spitch
                                       + 2 * Rect.x sr + 2 * (2 * tx) + 1)))
      with (sample16 sp spitch sr (2 * tx) (2 * ty)).
    destruct (Z.eqb_spec (sample16 sp spitch sr (2 * tx) (2 * ty)) key565)
      as [Hkey|Hkey]; cbn [negb].
    + cbn [mbind outcome_bind].
      exists (m1, tx + 1). split; [reflexivity|]. cbn [fst snd].
      split; [reflexivity|]. apply writes_refl. intros o b [Hne _].
      contradiction.
    + destruct (store16_writes m1
                  ((Rect.y dr + ty) * dpitch + 2 * Rect.x dr + 2 * tx)
                  (sample16 sp spitch sr (2 * tx) (2 * ty)))
        as (m2 & Hst & Hw);
        [apply half_off_in_range; assumption
        | rewrite Hlen1, Hlen; apply half_off_in_range; assumption |].
      rewrite Hst. cbn [mbind outcome_bind].
      exists (m2, tx + 1). split; [reflexivity|]. cbn [fst snd].
      split; [reflexivity|].
      eapply writes_iff; [exact Hw|]. intros o b. unfold half_px, sample16.
      split.
      * intros (_ & β & Hβ & -> & ->).
        assert (Hβ' : β = 0 ∨ β = 1) by lia.
        destruct Hβ' as [-> | ->]; [left | right].
        -- rewrite byte_of_Z_low, !Z.add_0_r. auto.
        -- rewrite byte_of_Z_high. auto.
      * intros [[-> ->] | [-> ->]]; (split; [exact Hkey|]);
          [exists 0 | exists 1].
        -- rewrite byte_of_Z_low, !Z.add_0_r. auto with zarith.
        -- rewrite byte_of_Z_high. auto with zarith.
  - intros tx tx' o b b' Hx Hlt Hx' H1 H2.
    destruct (half_px_inj ty tx ty tx' o b b') as (_ & Heq);
      try assumption; lia.
  - reflexivity.
Qed.

(** The two loops. *)
Lemma blit_half_writes (dp : list byte) :
  length dp = L →
  ∃ dp', blit_half sp spitch sr dp dpitch dr key565 = Done dp' ∧
    writes dp dp' (half_writes sp spitch sr dpitch dr key565).
Proof.
  intros Hlen. unfold blit_half.
  apply (for_range_step2_writes (λ m, m) (λ _ _, True)
           (half_row sp spitch sr dpitch dr key565)).
  - intros ty m Hy Hy' _ Hlen1. cbv zeta.
    assert (Hshift : Z.shiftr (2 * ty) 1 = ty).
    { rewrite Z.shiftr_div_pow2 by lia. change (2 ^ 1) with 2.
      rewrite Z.mul_comm. apply Z.div_mul. lia. }
    rewrite Hshift.
    destruct (half_row_writes ty m Hy Hy') as ([m2 dx] & Hrun & Hw);
      [congruence|].
    rewrite Hrun. cbn [mbind outcome_bind fst] in *.
    exists m2. auto.
  - intros ty ty' o b b' Hy Hlt Hy'
      (tx & Hx & Hx2 & H1) (tx' & Hx' & Hx2' & H2).
    destruct (half_px_inj ty tx ty' tx' o b b') as (Heq & _);
      try assumption; lia.
  - exact I.
Qed.

End BlitHalf.

(* ===================================================================== *)
(** ** The fast path on surfaces *)
(* ===================================================================== *)

Lemma sample16_pixel16 (s : SDL_Surface) (sr : SDL_Rect) (sx sy : Z) :
  sample16 (Surface.pixels s) (Surface.pitch s) sr sx sy
  = pixel16 s (Rect.x sr + sx) (Rect.y sr + sy).
Proof.
  unfold sample16, sample_off, pixel16.
  replace ((Rect.y sr + sy) * Surface.pitch s + 2 * Rect.x sr + 2 * sx)
    with ((Rect.y sr + sy) * Surface.pitch s + 2 * (Rect.x sr + sx)) by lia.
  reflexivity.
Qed.

Section FastPath.
Context `{sdl : SDL_Platform}.

Lemma blit_fast_upscale_eq (src dst : SDL_Surface) (sr dr : SDL_Rect)
    (key565 k : Z) (sd dd : SDL_PixelFormatDetails) :
  SDL_GetPixelFormatDetails (Surface.format src) = Some sd →
  SDL_GetPixelFormatDetails (Surface.format dst) = Some dd →
  bytes_per_pixel sd = 2 → bytes_per_pixel dd = 2 →
  k = 2 ∨ k = 3 ∨ k = 4 →
  blit_colorkey_scale_fast_RGB565 src sr dst dr key565 (F32.lit k 0)
  = (dp ← blit_upscale (Surface.pixels src) (Surface.pitch src) sr
            (Surface.pixels dst) (Surface.pitch dst) dr key565 k;
     Done (true, Surface.set_pixels dp dst)).
Proof.
  intros Hsd Hdd Hs2 Hd2 Hk. unfold blit_colorkey_scale_fast_RGB565.
  rewrite Hsd, Hdd, Hs2, Hd2, !lock_failed_false. cbn [Z.eqb Pos.eqb negb orb].
  destruct Hk as [-> | [-> | ->]]; reflexivity.
Qed.

Lemma blit_fast_half_eq (src dst : SDL_Surface) (sr dr : SDL_Rect)
    (key565 : Z) (sd dd : SDL_PixelFormatDetails) :
  SDL_GetPixelFormatDetails (Surface.format src) = Some sd →
  SDL_GetPixelFormatDetails (Surface.format dst) = Some dd →
  bytes_per_pixel sd = 2 → bytes_per_pixel dd = 2 →
  blit_colorkey_scale_fast_RGB565 src sr dst dr key565 (F32.lit 1 (-1))
  = (dp ← blit_half (Surface.pixels src) (Surface.pitch src) sr
            (Surface.pixels dst) (Surface.pitch dst) dr key565;
     Done (true, Surface.set_pixels dp dst)).
Proof.
  intros Hsd Hdd Hs2 Hd2. unfold blit_colorkey_scale_fast_RGB565.
  rewrite Hsd, Hdd, Hs2, Hd2, !lock_failed_false. reflexivity.
Qed.

(** The upscale path on surfaces: it returns true and the destination
    differs from the old one by [upscale_writes]. *)
Lemma blit_fast_upscale_spec (src dst : SDL_Surface) (sr dr : SDL_Rect)
    (key565 k : Z) (sd dd : SDL_PixelFormatDetails) :
  SDL_GetPixelFormatDetails (Surface.format src) = Some sd →
  SDL_GetPixelFormatDetails (Surface.format dst) = Some dd →
  bytes_per_pixel sd = 2 → bytes_per_pixel dd = 2 →
  k = 2 ∨ k = 3 ∨ k = 4 →
  surface_ok src 2 → surface_ok dst 2 →
  rect_inside sr src →
  rect_inside (region dr (Rect.w sr * k) (Rect.h sr * k)) dst →
  ∃ dp, blit_colorkey_scale_fast_RGB565 src sr dst dr key565 (F32.lit k 0)
          = Done (true, Surface.set_pixels dp dst) ∧
    writes (Surface.pixels dst) dp
      (upscale_writes (Surface.pixels src) (Surface.pitch src) sr
         (Surface.pitch dst) dr key565 k).
Proof.
  intros Hsd Hdd Hs2 Hd2 Hk (Hsw & Hsh & _ & Hsp & Hsl) (Hdw & Hdh & _ & Hdp & Hdl)
    (Hx & Hy & Hw & Hh & Hxw & Hyh) (Hdx & Hdy & _ & _ & Hdxw & Hdyh).
  cbn [region Rect.x Rect.y Rect.w Rect.h] in *.
  rewrite (blit_fast_upscale_eq src dst sr dr key565 k sd dd) by assumption.
  destruct (blit_upscale_writes (Surface.pixels src) (Surface.pitch src) sr
              (Surface.pitch dst) dr key565 k (length (Surface.pixels dst)))
    with (dp := Surface.pixels dst) as (dp & -> & Hwr);
    try lia; try reflexivity.
  - assert (0 ≤ Surface.pitch src) by lia.
    assert ((Rect.y sr + Rect.h sr) * Surface.pitch src
            ≤ Surface.h src * Surface.pitch src)
      by (apply Z.mul_le_mono_nonneg_r; lia).
    lia.
  - assert (0 ≤ Surface.pitch dst) by lia.
    assert ((Rect.y dr + Rect.h sr * k) * Surface.pitch dst
            ≤ Surface.h dst * Surface.pitch dst)
      by (apply Z.mul_le_mono_nonneg_r; lia).
    lia.
  - exists dp. split; [reflexivity|exact Hwr].
Qed.

Lemma blit_fast_half_spec (src dst : SDL_Surface) (sr dr : SDL_Rect)
    (key565 : Z) (sd dd : SDL_PixelFormatDetails) :
  SDL_GetPixelFormatDetails (Surface.format src) = Some sd →
  SDL_GetPixelFormatDetails (Surface.format dst) = Some dd →
  bytes_per_pixel sd = 2 → bytes_per_pixel dd = 2 →
  surface_ok src 2 → surface_ok dst 2 →
  rect_inside sr src →
  rect_inside (region dr ((Rect.w sr + 1) / 2) ((Rect.h sr + 1) / 2)) dst →
  ∃ dp, blit_colorkey_scale_fast_RGB565 src sr dst dr key565 (F32.lit 1 (-1))
          = Done (true, Surface.set_pixels dp dst) ∧
    writes (Surface.pixels dst) dp
      (half_writes (Surface.pixels src) (Surface.pitch src) sr
         (Surface.pitch dst) dr key565).
Proof.
  intros Hsd Hdd Hs2 Hd2 (Hsw & Hsh & _ & Hsp & Hsl) (Hdw & Hdh & _ & Hdp & Hdl)
    (Hx & Hy & Hw & Hh & Hxw & Hyh) (Hdx & Hdy & _ & _ & Hdxw & Hdyh).
  cbn [region Rect.x Rect.y Rect.w Rect.h] in *.
  rewrite (blit_fast_half_eq src dst sr dr key565 sd dd) by assumption.
  destruct (blit_half_writes (Surface.pixels src) (Surface.pitch src) sr
              (Surface.pitch dst) dr key565 (length (Surface.pixels dst)))
    with (dp := Surface.pixels dst) as (dp & -> & Hwr);
    try lia; try reflexivity.
  - assert (0 ≤ Surface.pitch src) by lia.
    assert ((Rect.y sr + Rect.h sr) * Surface.pitch src
            ≤ Surface.h src * Surface.pitch src)
      by (apply Z.mul_le_mono_nonneg_r; lia).
    lia.
  - assert (0 ≤ Surface.pitch dst) by lia.
    assert ((Rect.y dr + (Rect.h sr + 1) / 2) * Surface.pitch dst
            ≤ Surface.h dst * Surface.pitch dst)
      by (apply Z.mul_le_mono_nonneg_r; lia).
    lia.
  - exists dp. split; [reflexivity|exact Hwr].
Qed.

End FastPath.

(* ===================================================================== *)
(** ** From written bytes to pixels *)
(* ===================================================================== *)

Lemma pixel16_set_pixels (dp : list byte) (s : SDL_Surface) (X Y : Z) :
  pixel16 (Surface.set_pixels dp s) X Y
  = byte_to_Z (get dp (Y * Surface.pitch s + 2 * X))
    + 256 * byte_to_Z (get dp (Y * Surface.pitch s + 2 * X + 1)).
Proof. reflexivity. Qed.

Section PixelsUpscale.
Variables (src dst : SDL_Surface) (sr dr : SDL_Rect) (key565 k : Z).
Variable dp : list byte.

Hypothesis Hk : 0 < k.
Hypothesis Hdst : surface_ok dst 2.
Hypothesis Hreg : rect_inside (region dr (Rect.w sr * k) (Rect.h sr * k)) dst.
Hypothesis Hsw : 0 ≤ Rect.w sr.
Hypothesis Hwr :
  writes (Surface.pixels dst) dp
    (upscale_writes (Surface.pixels src) (Surface.pitch src) sr
       (Surface.pitch dst) dr key565 k).

Lemma upscale_pixel_written (sx sy i j : Z) :
  0 ≤ sx < Rect.w sr → 0 ≤ sy < Rect.h sr → 0 ≤ i < k → 0 ≤ j < k →
  pixel16 src (Rect.x sr + sx) (Rect.y sr + sy) ≠ key565 →
  pixel16 (Surface.set_pixels dp dst)
    (Rect.x dr + sx * k + i) (Rect.y dr + sy * k + j)
  = pixel16 src (Rect.x sr + sx) (Rect.y sr + sy).
Proof.
  intros Hx Hy Hi Hj Hne. destruct Hwr as (_ & Hw & _).
  rewrite pixel16_set_pixels, <- sample16_pixel16.
  rewrite <- sample16_pixel16 in Hne.
  assert (Hb : ∀ β, 0 ≤ β < 2 →
    upscale_writes (Surface.pixels src) (Surface.pitch src) sr
      (Surface.pitch dst) dr key565 k
      ((Rect.y dr + sy * k + j) * Surface.pitch dst
       + 2 * (Rect.x dr + sx * k + i) + β)
      (get (Surface.pixels src)
         (sample_off (Surface.pitch src) sr sx sy + β))).
  { intros β Hβ. exists sy. split; [exact Hy|]. exists j. split; [exact Hj|].
    exists sx. split; [exact Hx|]. split; [exact Hne|].
    exists i. split; [exact Hi|]. exists β. split; [exact Hβ|].
    split; [lia|reflexivity]. }
  pose proof (Hw _ _ (Hb 0 ltac:(lia))) as H0.
  pose proof (Hw _ _ (Hb 1 ltac:(lia))) as H1.
  rewrite !Z.add_0_r in H0. rewrite H0, H1. reflexivity.
Qed.

Lemma upscale_pixel_kept (X Y : Z) :
  0 ≤ X < Surface.w dst → 0 ≤ Y →
  (∀ sx sy i j, 0 ≤ sx < Rect.w sr → 0 ≤ sy < Rect.h sr →
     0 ≤ i < k → 0 ≤ j < k →
     X = Rect.x dr + sx * k + i → Y = Rect.y dr + sy * k + j →
     pixel16 src (Rect.x sr + sx) (Rect.y sr + sy) = key565) →
  pixel16 (Surface.set_pixels dp dst) X Y = pixel16 dst X Y.
Proof.
  intros HX HY Hkey. destruct Hwr as (_ & _ & Hkeep).
  destruct Hdst as (Hdw & Hdh & _ & Hdp & Hdl).
  destruct Hreg as (Hdx & Hdy & _ & _ & Hdxw & Hdyh).
  cbn [region Rect.x Rect.y Rect.w Rect.h] in *.
  assert (Hno : ∀ β, 0 ≤ β < 2 → ∀ b,
    ¬ upscale_writes (Surface.pixels src) (Surface.pitch src) sr
        (Surface.pitch dst) dr key565 k
        (Y * Surface.pitch dst + 2 * X + β) b).
  { intros β Hβ b (sy & Hy & vy & Hvy & sx & Hx & Hne & i & Hi & β' & Hβ' & Ho & _).
    assert (Hc : 0 ≤ sx * k + i < Rect.w sr * k) by nia.
    destruct (offset_inj (Surface.pitch dst) (2 * X + β)
                (2 * Rect.x dr + 2 * (sx * k + i) + β') Y
                (Rect.y dr + sy * k + vy)) as [HeqY Hcol]; [lia | lia | lia |].
    destruct (offset_inj 2 β β' X (Rect.x dr + sx * k + i)) as [HeqX _];
      [lia | lia | lia |].
    apply Hne. rewrite sample16_pixel16.
    apply (Hkey sx sy i vy); assumption || lia. }
  rewrite pixel16_set_pixels. unfold pixel16.
  rewrite <- (Z.add_0_r (Y * Surface.pitch dst + 2 * X)) at 1 3.
  rewrite (Hkeep _ (Hno 0 ltac:(lia))), (Hkeep _ (Hno 1 ltac:(lia))).
  reflexivity.
Qed.

End PixelsUpscale.

Section PixelsHalf.
Variables (src dst : SDL_Surface) (sr dr : SDL_Rect) (key565 : Z).
Variable dp : list byte.

Hypothesis Hdst : surface_ok dst 2.
Hypothesis Hreg :
  rect_inside (region dr ((Rect.w sr + 1) / 2) ((Rect.h sr + 1) / 2)) dst.
Hypothesis Hwr :
  writes (Surface.pixels dst) dp
    (half_writes (Surface.pixels src) (Surface.pitch src) sr
       (Surface.pitch dst) dr key565).

Lemma half_pixel_written (tx ty : Z) :
  0 ≤ tx → 2 * tx < Rect.w sr → 0 ≤ ty → 2 * ty < Rect.h sr →
  pixel16 src (Rect.x sr + 2 * tx) (Rect.y sr + 2 * ty) ≠ key565 →
  pixel16 (Surface.set_pixels dp dst) (Rect.x dr + tx) (Rect.y dr + ty)
  = pixel16 src (Rect.x sr + 2 * tx) (Rect.y sr + 2 * ty).
Proof.
  intros Hx Hx' Hy Hy' Hne. destruct Hwr as (_ & Hw & _).
  rewrite pixel16_set_pixels, <- sample16_pixel16.
  rewrite <- sample16_pixel16 in Hne.
  assert (Hb : ∀ β, 0 ≤ β < 2 →
    half_writes (Surface.pixels src) (Surface.pitch src) sr
      (Surface.pitch dst) dr key565
      ((Rect.y dr + ty) * Surface.pitch dst + 2 * (Rect.x dr + tx) + β)
      (get (Surface.pixels src)
         (sample_off (Surface.pitch src) sr (2 * tx) (2 * ty) + β))).
  { intros β Hβ. exists ty. split; [exact Hy|]. split; [exact Hy'|].
    exists tx. split; [exact Hx|]. split; [exact Hx'|]. split; [exact Hne|].
    exists β. split; [exact Hβ|]. split; [lia|reflexivity]. }
  pose proof (Hw _ _ (Hb 0 ltac:(lia))) as H0.
  pose proof (Hw _ _ (Hb 1 ltac:(lia))) as H1.
  rewrite !Z.add_0_r in H0. rewrite H0, H1. reflexivity.
Qed.

Lemma half_pixel_kept (X Y : Z) :
  0 ≤ X < Surface.w dst → 0 ≤ Y →
  (∀ tx ty, 0 ≤ tx → 2 * tx < Rect.w sr → 0 ≤ ty → 2 * ty < Rect.h sr →
     X = Rect.x dr + tx → Y = Rect.y dr + ty →
     pixel16 src (Rect.x sr + 2 * tx) (Rect.y sr + 2 * ty) = key565) →
  pixel16 (Surface.set_pixels dp dst) X Y = pixel16 dst X Y.
Proof.
  intros HX HY Hkey. destruct Hwr as (_ & _ & Hkeep).
  destruct Hdst as (Hdw & Hdh & _ & Hdp & Hdl).
  destruct Hreg as (Hdx & Hdy & _ & _ & Hdxw & Hdyh).
  cbn [region Rect.x Rect.y Rect.w Rect.h] in *.
  assert (Hno : ∀ β, 0 ≤ β < 2 → ∀ b,
    ¬ half_writes (Surface.pixels src) (Surface.pitch src) sr
        (Surface.pitch dst) dr key565
        (Y * Surface.pitch dst + 2 * X + β) b).
  { intros β Hβ b (ty & Hy & Hy' & tx & Hx & Hx' & Hne & β' & Hβ' & Ho & _).
    assert (Htx : tx < (Rect.w sr + 1) / 2).
    { pose proof (Z.div_mod (Rect.w sr + 1) 2 ltac:(lia)).
      pose proof (Z.mod_pos_bound (Rect.w sr + 1) 2 ltac:(lia)). lia. }
    destruct (offset_inj (Surface.pitch dst) (2 * X + β)
                (2 * Rect.x dr + 2 * tx + β') Y (Rect.y dr + ty))
      as [HeqY Hcol]; [lia | lia | lia |].
    destruct (offset_inj 2 β β' X (Rect.x dr + tx)) as [HeqX _];
      [lia | lia | lia |].
    apply Hne. rewrite sample16_pixel16.
    apply (Hkey tx ty); assumption || lia. }
  rewrite pixel16_set_pixels. unfold pixel16.
  rewrite <- (Z.add_0_r (Y * Surface.pitch dst + 2 * X)) at 1 3.
  rewrite (Hkeep _ (Hno 0 ltac:(lia))), (Hkeep _ (Hno 1 ltac:(lia))).
  reflexivity.
Qed.

End PixelsHalf.

(* ===================================================================== *)
(** ** The claims about the fast path *)
(* ===================================================================== *)

Section FastPathClaims.
Context `{sdl : SDL_Platform}.
Variables (src dst : SDL_Surface) (sr dr : SDL_Rect) (key565 : Z).
Variables (sd dd : SDL_PixelFormatDetails).

(** C1.  Both surfaces have 2 bytes per pixel, the source rectangle lies in
    the source and holds no pixel equal to the colorkey.  Then, when the
    scaled rectangle lies in the destination, the fast path returns true
    and: for the factor k in {2, 3, 4}, destination pixel
    (dr.x + sx*k + i, dr.y + sy*k + j) is source pixel (sr.x + sx, sr.y + sy)
    for all 0 <= i, j < k; for the scale 0.5, destination pixel
    (dr.x + sx/2, dr.y + sy/2) is source pixel (sr.x + sx, sr.y + sy) for
    even sx and sy. *)
Theorem blit_fast_nearest_neighbor :
  SDL_GetPixelFormatDetails (Surface.format src) = Some sd →
  SDL_GetPixelFormatDetails (Surface.format dst) = Some dd →
  bytes_per_pixel sd = 2 → bytes_per_pixel dd = 2 →
  surface_ok src 2 → surface_ok dst 2 →
  rect_inside sr src →
  (∀ sx sy, 0 ≤ sx < Rect.w sr → 0 ≤ sy < Rect.h sr →
     pixel16 src (Rect.x sr + sx) (Rect.y sr + sy) ≠ key565) →
  (∀ k, k = 2 ∨ k = 3 ∨ k = 4 →
     rect_inside (region dr (Rect.w sr * k) (Rect.h sr * k)) dst →
     ∃ dst',
       blit_colorkey_scale_fast_RGB565 src sr dst dr key565 (F32.lit k 0)
         = Done (true, dst') ∧
       ∀ sx sy i j, 0 ≤ sx < Rect.w sr → 0 ≤ sy < Rect.h sr →
         0 ≤ i < k → 0 ≤ j < k →
         pixel16 dst' (Rect.x dr + sx * k + i) (Rect.y dr + sy * k + j)
         = pixel16 src (Rect.x sr + sx) (Rect.y sr + sy)) ∧
  (rect_inside (region dr ((Rect.w sr + 1) / 2) ((Rect.h sr + 1) / 2)) dst →
   ∃ dst',
     blit_colorkey_scale_fast_RGB565 src sr dst dr key565 (F32.lit 1 (-1))
       = Done (true, dst') ∧
     ∀ sx sy, 0 ≤ sx < Rect.w sr → 0 ≤ sy < Rect.h sr →
       Z.even sx = true → Z.even sy = true →
       pixel16 dst' (Rect.x dr + sx / 2) (Rect.y dr + sy / 2)
       = pixel16 src (Rect.x sr + sx) (Rect.y sr + sy)).
Proof.
  intros Hsd Hdd Hs2 Hd2 Hsrc Hdst Hsr Hnokey. split.
  - intros k Hk Hreg.
    destruct (blit_fast_upscale_spec src dst sr dr key565 k sd dd)
      as (dp & Hrun & Hwr); try assumption.
    exists (Surface.set_pixels dp dst). split; [exact Hrun|].
    intros sx sy i j Hx Hy Hi Hj.
    apply (upscale_pixel_written src dst sr dr key565 k dp); auto; lia.
  - intros Hreg.
    destruct (blit_fast_half_spec src dst sr dr key565 sd dd)
      as (dp & Hrun & Hwr); try assumption.
    exists (Surface.set_pixels dp dst). split; [exact Hrun|].
    intros sx sy Hx Hy Hex Hey.
    apply Z.even_spec in Hex as [tx ->]. apply Z.even_spec in Hey as [ty ->].
    rewrite !(Z.mul_comm 2), !Z.div_mul by lia. rewrite !(Z.mul_comm _ 2).
    apply (half_pixel_written src dst sr dr key565 dp); auto; try lia;
      apply Hnokey; lia.
Qed.

(** C2.  Both surfaces have 2 bytes per pixel and the rectangles lie in
    their surfaces.  Then the fast path returns true and a source pixel
    equal to the colorkey causes no write: every destination pixel of the
    replication cell of such a pixel holds what it held before the call,
    and so does every destination pixel that is not in the cell of a
    source pixel different from the colorkey. *)
Theorem blit_fast_colorkey_transparent :
  SDL_GetPixelFormatDetails (Surface.format src) = Some sd →
  SDL_GetPixelFormatDetails (Surface.format dst) = Some dd →
  bytes_per_pixel sd = 2 → bytes_per_pixel dd = 2 →
  surface_ok src 2 → surface_ok dst 2 →
  rect_inside sr src →
  (∀ k, k = 2 ∨ k = 3 ∨ k = 4 →
     rect_inside (region dr (Rect.w sr * k) (Rect.h sr * k)) dst →
     ∃ dst',
       blit_colorkey_scale_fast_RGB565 src sr dst dr key565 (F32.lit k 0)
         = Done (true, dst') ∧
       (∀ sx sy i j, 0 ≤ sx < Rect.w sr → 0 ≤ sy < Rect.h sr →
          0 ≤ i < k → 0 ≤ j < k →
          pixel16 src (Rect.x sr + sx) (Rect.y sr + sy) = key565 →
          pixel16 dst' (Rect.x dr + sx * k + i) (Rect.y dr + sy * k + j)
          = pixel16 dst (Rect.x dr + sx * k + i) (Rect.y dr + sy * k + j)) ∧
       (∀ X Y, 0 ≤ X < Surface.w dst → 0 ≤ Y < Surface.h dst →
          (∀ sx sy i j, 0 ≤ sx < Rect.w sr → 0 ≤ sy < Rect.h sr →
             0 ≤ i < k → 0 ≤ j < k →
             X = Rect.x dr + sx * k + i → Y = Rect.y dr + sy * k + j →
             pixel16 src (Rect.x sr + sx) (Rect.y sr + sy) = key565) →
          pixel16 dst' X Y = pixel16 dst X Y)) ∧
  (rect_inside (region dr ((Rect.w sr + 1) / 2) ((Rect.h sr + 1) / 2)) dst →
   ∃ dst',
     blit_colorkey_scale_fast_RGB565 src sr dst dr key565 (F32.lit 1 (-1))
       = Done (true, dst') ∧
     (∀ sx sy, 0 ≤ sx < Rect.w sr → 0 ≤ sy < Rect.h sr →
        Z.even sx = true → Z.even sy = true →
        pixel16 src (Rect.x sr + sx) (Rect.y sr + sy) = key565 →
        pixel16 dst' (Rect.x dr + sx / 2) (Rect.y dr + sy / 2)
        = pixel16 dst (Rect.x dr + sx / 2) (Rect.y dr + sy / 2)) ∧
     (∀ X Y, 0 ≤ X < Surface.w dst → 0 ≤ Y < Surface.h dst →
        (∀ tx ty, 0 ≤ tx → 2 * tx < Rect.w sr → 0 ≤ ty → 2 * ty < Rect.h sr →
           X = Rect.x dr + tx → Y = Rect.y dr + ty →
           pixel16 src (Rect.x sr + 2 * tx) (Rect.y sr + 2 * ty) = key565) →
        pixel16 dst' X Y = pixel16 dst X Y)).
Proof.
  intros Hsd Hdd Hs2 Hd2 Hsrc Hdst Hsr. split.
  - intros k Hk Hreg.
    destruct (blit_fast_upscale_spec src dst sr dr key565 k sd dd)
      as (dp & Hrun & Hwr); try assumption.
    exists (Surface.set_pixels dp dst). split; [exact Hrun|].
    assert (Hkept : ∀ X Y, 0 ≤ X < Surface.w dst → 0 ≤ Y →
      (∀ sx sy i j, 0 ≤ sx < Rect.w sr → 0 ≤ sy < Rect.h sr →
         0 ≤ i < k → 0 ≤ j < k →
         X = Rect.x dr + sx * k + i → Y = Rect.y dr + sy * k + j →
         pixel16 src (Rect.x sr + sx) (Rect.y sr + sy) = key565) →
      pixel16 (Surface.set_pixels dp dst) X Y = pixel16 dst X Y).
    { apply upscale_pixel_kept; try assumption; [lia|].
      destruct Hsr as (_ & _ & ? & _). assumption. }
    split.
    + intros sx sy i j Hx Hy Hi Hj Hkey.
      destruct Hreg as (Hdx & Hdy & _ & _ & Hdxw & Hdyh).
      cbn [region Rect.x Rect.y Rect.w Rect.h] in *.
      apply Hkept; [nia | nia |].
      intros sx' sy' i' j' Hx' Hy' Hi' Hj' HeqX HeqY.
      destruct (offset_inj k i i' sx sx') as [<- _]; [lia..|].
      destruct (offset_inj k j j' sy sy') as [<- _]; [lia..|].
      exact Hkey.
    + intros X Y HX HY. apply Hkept; [exact HX | lia].
  - intros Hreg.
    destruct (blit_fast_half_spec src dst sr dr key565 sd dd)
      as (dp & Hrun & Hwr); try assumption.
    exists (Surface.set_pixels dp dst). split; [exact Hrun|].
    pose proof (half_pixel_kept src dst sr dr key565 dp Hdst Hreg Hwr)
      as Hkept.
    split.
    + intros sx sy Hx Hy Hex Hey Hkey.
      apply Z.even_spec in Hex as [tx ->]. apply Z.even_spec in Hey as [ty ->].
      rewrite !(Z.mul_comm 2 tx), !(Z.mul_comm 2 ty), !Z.div_mul by lia.
      destruct Hreg as (Hdx & Hdy & _ & _ & Hdxw & Hdyh).
      cbn [region Rect.x Rect.y Rect.w Rect.h] in *.
      assert (Htx : tx < (Rect.w sr + 1) / 2).
      { pose proof (Z.div_mod (Rect.w sr + 1) 2 ltac:(lia)).
        pose proof (Z.mod_pos_bound (Rect.w sr + 1) 2 ltac:(lia)). lia. }
      apply Hkept; [lia | lia |].
      intros tx' ty' Hx' Hx2' Hy' Hy2' HeqX HeqY.
      replace tx' with tx by lia. replace ty' with ty by lia.
      exact Hkey.
    + intros X Y HX HY. apply Hkept; [exact HX | lia].
Qed.

End FastPathClaims.

(** C1 on the sample data: a 2 x 2 rectangle of the opaque sheet, at the
    factor 2 and at the scale 0.5. *)
Lemma blit_fast_nearest_neighbor_witness :
  (∃ dst',
     @blit_colorkey_scale_fast_RGB565 Ref.platform Ref.opaque Ref.rect_2x2
       Ref.window7 Ref.corner Ref.gray565 (F32.lit 2 0) = Done (true, dst') ∧
     ∀ sx sy i j, 0 ≤ sx < 2 → 0 ≤ sy < 2 → 0 ≤ i < 2 → 0 ≤ j < 2 →
       pixel16 dst' (10 + sx * 2 + i) (20 + sy * 2 + j)
       = pixel16 Ref.opaque (2 + sx) (2 + sy)) ∧
  (∃ dst',
     @blit_colorkey_scale_fast_RGB565 Ref.platform Ref.opaque Ref.rect_2x2
       Ref.window7 Ref.corner Ref.gray565 (F32.lit 1 (-1))
       = Done (true, dst') ∧
     ∀ sx sy, 0 ≤ sx < 2 → 0 ≤ sy < 2 →
       Z.even sx = true → Z.even sy = true →
       pixel16 dst' (10 + sx / 2) (20 + sy / 2)
       = pixel16 Ref.opaque (2 + sx) (2 + sy)).
Proof.
  assert (Hopaque : ∀ sx sy,
            0 ≤ sx < Rect.w Ref.rect_2x2 → 0 ≤ sy < Rect.h Ref.rect_2x2 →
            pixel16 Ref.opaque (Rect.x Ref.rect_2x2 + sx)
              (Rect.y Ref.rect_2x2 + sy) ≠ Ref.gray565).
  { intros sx sy Hx Hy. change (Rect.w Ref.rect_2x2) with 2 in Hx.
    change (Rect.h Ref.rect_2x2) with 2 in Hy.
    assert (Hsx : sx = 0 ∨ sx = 1) by lia.
    assert (Hsy : sy = 0 ∨ sy = 1) by lia.
    destruct Hsx as [-> | ->], Hsy as [-> | ->]; by_computation. }
  destruct (@blit_fast_nearest_neighbor Ref.platform Ref.opaque Ref.window7
              Ref.rect_2x2 Ref.corner Ref.gray565 Ref.rgb565 Ref.rgb565
              ltac:(by_computation) ltac:(by_computation)
              ltac:(by_computation) ltac:(by_computation)
              ltac:(by_computation) ltac:(by_computation)
              ltac:(by_computation) Hopaque)
    as [Hup Hhalf].
  split; [apply (Hup 2); [auto|by_computation] | apply Hhalf; by_computation].
Defined.

(** C2 on the sample data: a 2 x 2 rectangle of the sheet with transparent
    pixels, at the factor 3 and at the scale 0.5. *)
Lemma blit_fast_colorkey_transparent_witness :
  (∃ dst',
     @blit_colorkey_scale_fast_RGB565 Ref.platform Ref.sheet Ref.rect_2x2
       Ref.window7 Ref.corner Ref.gray565 (F32.lit 3 0) = Done (true, dst') ∧
     (∀ sx sy i j, 0 ≤ sx < 2 → 0 ≤ sy < 2 → 0 ≤ i < 3 → 0 ≤ j < 3 →
        pixel16 Ref.sheet (2 + sx) (2 + sy) = Ref.gray565 →
        pixel16 dst' (10 + sx * 3 + i) (20 + sy * 3 + j)
        = pixel16 Ref.window7 (10 + sx * 3 + i) (20 + sy * 3 + j)) ∧
     (∀ X Y, 0 ≤ X < 64 → 0 ≤ Y < 48 →
        (∀ sx sy i j, 0 ≤ sx < 2 → 0 ≤ sy < 2 → 0 ≤ i < 3 → 0 ≤ j < 3 →
           X = 10 + sx * 3 + i → Y = 20 + sy * 3 + j →
           pixel16 Ref.sheet (2 + sx) (2 + sy) = Ref.gray565) →
        pixel16 dst' X Y = pixel16 Ref.window7 X Y)) ∧
  (∃ dst',
     @blit_colorkey_scale_fast_RGB565 Ref.platform Ref.sheet Ref.rect_2x2
       Ref.window7 Ref.corner Ref.gray565 (F32.lit 1 (-1))
       = Done (true, dst') ∧
     (∀ sx sy, 0 ≤ sx < 2 → 0 ≤ sy < 2 →
        Z.even sx = true → Z.even sy = true →
        pixel16 Ref.sheet (2 + sx) (2 + sy) = Ref.gray565 →
        pixel16 dst' (10 + sx / 2) (20 + sy / 2)
        = pixel16 Ref.window7 (10 + sx / 2) (20 + sy / 2)) ∧
     (∀ X Y, 0 ≤ X < 64 → 0 ≤ Y < 48 →
        (∀ tx ty, 0 ≤ tx → 2 * tx < 2 → 0 ≤ ty → 2 * ty < 2 →
           X = 10 + tx → Y = 20 + ty →
           pixel16 Ref.sheet (2 + 2 * tx) (2 + 2 * ty) = Ref.gray565) →
        pixel16 dst' X Y = pixel16 Ref.window7 X Y)).
Proof.
  destruct (@blit_fast_colorkey_transparent Ref.platform Ref.sheet Ref.window7
              Ref.rect_2x2 Ref.corner Ref.gray565 Ref.rgb565 Ref.rgb565
              ltac:(by_computation) ltac:(by_computation)
              ltac:(by_computation) ltac:(by_computation)
              ltac:(by_computation) ltac:(by_computation)
              ltac:(by_computation))
    as [Hup Hhalf].
  split; [apply (Hup 3); [auto|by_computation] | apply Hhalf; by_computation].
Defined.

(** The sentinel survives: of the 2 x 2 rectangle at (2, 2) of the sample
    sheet the pixel (3, 3) is transparent.  At the factor 2 its cell keeps
    the 7 of the window, the cell of (2, 2) holds its value 1034, and the
    pixel right of the scaled rectangle is untouched. *)
Example blit_fast_sentinel :
  ∃ dst',
    @blit_colorkey_scale_fast_RGB565 Ref.platform Ref.sheet Ref.rect_2x2
      Ref.window7 Ref.corner Ref.gray565 (F32.lit 2 0) = Done (true, dst') ∧
    pixel16 Ref.sheet 3 3 = Ref.gray565 ∧
    pixel16 dst' 12 22 = 7 ∧ pixel16 dst' 13 23 = 7 ∧
    pixel16 dst' 10 20 = pixel16 Ref.sheet 2 2 ∧
    pixel16 dst' 11 21 = 1034 ∧
    pixel16 dst' 14 20 = 7.
Proof.
  by_running.
Qed.

(* ===================================================================== *)
(** ** Written region and draw size *)
(* ===================================================================== *)

(** For a source rectangle of the nominal frame size the region the fast
    path writes -- w*k x h*k, or ceil(w/2) x ceil(h/2) at scale 0.5 -- is
    the draw size. *)
Lemma draw_size_nominal_frame (a : App) (rot : Z) :
  0 ≤ App.fw a < 2 ^ 20 → 0 ≤ App.fh a < 2 ^ 20 →
  ∀ cols_r rows_r fw_r fh_r,
    grid_for_rot a rot = (cols_r, rows_r, fw_r, fh_r) →
    (∀ k, k = 2 ∨ k = 3 ∨ k = 4 → App.scale a = F32.lit k 0 →
       draw_size_for_rot a rot = Done (fw_r * k, fh_r * k)) ∧
    (App.scale a = F32.lit 1 (-1) →
       draw_size_for_rot a rot = Done ((fw_r + 1) / 2, (fh_r + 1) / 2)).
Proof.
  intros Hfw Hfh cols_r rows_r fw_r fh_r Hg. split.
  - intros k Hk Hsc.
    destruct (draw_size_defined a rot (2 * k) Hfw Hfh) as (dw & dh & -> & Hd).
    + rewrite Hsc. destruct Hk as [-> | [-> | ->]]; reflexivity.
    + lia.
    + rewrite Hg in Hd. destruct Hd as [-> ->]. f_equal. f_equal.
      * replace (fw_r * (2 * k) + 1) with (1 + (fw_r * k) * 2) by lia.
        rewrite Z.div_add by lia. reflexivity.
      * replace (fh_r * (2 * k) + 1) with (1 + (fh_r * k) * 2) by lia.
        rewrite Z.div_add by lia. reflexivity.
  - intros Hsc.
    destruct (draw_size_defined a rot 1 Hfw Hfh) as (dw & dh & -> & Hd).
    + rewrite Hsc. reflexivity.
    + lia.
    + rewrite Hg in Hd. destruct Hd as [-> ->]. rewrite !Z.mul_1_r. reflexivity.
Qed.

(** C4 fails on the code.  On a sheet of 17 x 8 pixels frame 7 is in the
    last column: its source rectangle is 3 pixels wide where the nominal
    frame is 2.  At scale 2.0 the draw size is 4 x 4 and the tick records
    the rectangle (11, 21, 4, 4), but the fast path has written 3 * 2 = 6
    columns: the columns 15 and 16 of the window, right of the rectangle,
    hold sheet pixels.  At scale 0.5 the draw size is 1 x 1 and two columns
    are written. *)
Theorem fast_path_writes_beyond_draw_size :
  get_src_for_frame_rot Ref.ragged 7 0
    = Done {| Rect.x := 14; Rect.y := 0; Rect.w := 3; Rect.h := 2 |} ∧
  draw_size_for_rot Ref.ragged 0 = Done (4, 4) ∧
  (∃ a', @SDL_AppIterate Ref.platform 5 1000 Ref.ragged
           = Done (SDL_APP_CONTINUE, a') ∧
     App.prev_dst a'
       = {| Rect.x := 11; Rect.y := 21; Rect.w := 4; Rect.h := 4 |} ∧
     pixel16 (App.win Ref.ragged) 15 21 = 0 ∧
     pixel16 (App.win Ref.ragged) 16 21 = 0 ∧
     pixel16 (App.win a') 15 21 = pixel16 Ref.ragged_sheet 16 0 ∧
     pixel16 (App.win a') 16 21 = pixel16 Ref.ragged_sheet 16 0 ∧
     pixel16 Ref.ragged_sheet 16 0 = 1016) ∧
  draw_size_for_rot Ref.ragged_half 0 = Done (1, 1) ∧
  (∃ a', @SDL_AppIterate Ref.platform 5 1000 Ref.ragged_half
           = Done (SDL_APP_CONTINUE, a') ∧
     App.prev_dst a'
       = {| Rect.x := 11; Rect.y := 21; Rect.w := 1; Rect.h := 1 |} ∧
     pixel16 (App.win Ref.ragged_half) 12 21 = 0 ∧
     pixel16 (App.win a') 12 21 = pixel16 Ref.ragged_sheet 16 0).
Proof.
  split; [vm_compute; reflexivity|]. split; [vm_compute; reflexivity|].
  split; [by_running|].
  split; [vm_compute; reflexivity|].
  by_running.
Qed.

(* ================================================================== *)
(** ** The tick returns: SDL_AppIterate on the states of the invariant *)
(* ================================================================== *)



Lemma scale_option_Done (j : Z) (s : float) :
  scale_option j = Done s → 0 ≤ j < SCALE_COUNT ∧ ∃ n, s = F32.Fin n.
Proof.
  unfold scale_option. destruct (Z.ltb_spec j 0); [discriminate|].
  destruct (SCALE_OPTIONS !! Z.to_nat j) as [s'|] eqn:Hs; [|discriminate].
  intros [= <-]. split.
  - apply lookup_lt_Some in Hs. unfold SCALE_COUNT. lia.
  - apply list_elem_of_lookup_2 in Hs. unfold SCALE_OPTIONS, F32.lit in Hs.
    repeat (apply elem_of_cons in Hs; destruct Hs as [->|Hs]; [eauto|]).
    apply elem_of_nil in Hs. contradiction.
Qed.










Section TickDefined.
Context `{sdl : SDL_Platform}.














End TickDefined.

Section TickReturns.
Context `{sdl : SDL_Platform}.





End TickReturns.






Section NextTick.
Context `{sdl : SDL_Platform}.



End NextTick.

Section DirtyRect.
Context `{sdl : SDL_Platform}.


End DirtyRect.



